(** * The streaming reducer of [CustomAgentService.query]

    A shallow embedding of the event loop of [CustomAgentService.query]
    and of [extractErrorMessage], together with the properties the
    specification states about them.

    The transcript is a JavaScript array of [ChatMessage] objects.  The loop
    keeps a reference [updatedMessages] to the current array; most cases of
    the [switch] build a fresh array, one case assigns into the current one.
    Arrays are therefore kept in a store, indexed by allocation order, so
    that what an observer holds after [onMessage] can be compared with what
    the array contains later. *)

From Stdlib Require Import ZArith Lia.
From stdpp Require Import base option list strings pretty gmap.

(** ** JavaScript values *)

(** The values of an [unknown] payload (an error, a tool input, a tool
    output) that the model covers.  Numbers are the integer-valued ones.  [VError] is an instance
    of [Error]; only its [message] is read by the code.  The properties of a
    plain object are kept in the order they were written, one entry per
    key. *)
#[warnings="-register-all"]
Inductive JsValue : Type :=
| VNull
| VUndefined
| VBool (b : bool)
| VNumber (n : Z)
| VString (s : string)
| VError (message : string)
| VArray (items : list JsValue)
| VObject (props : list (string * JsValue)).

(** The built-ins of the JavaScript runtime that the code calls and that are
    not part of the repository. *)
Record JsRuntime : Type := {
  JSON_stringify : JsValue -> string;
  String_ : JsValue -> string;
}.

Module Js.

(** [error === null || error === undefined] *)
Definition isNullish (v : JsValue) : bool :=
  match v with
  | VNull | VUndefined => true
  | _ => false
  end.

(** [typeof v === 'string'], with the string when it is one. *)
Definition asString (v : JsValue) : option string :=
  match v with
  | VString s => Some s
  | _ => None
  end.

(** [v instanceof Error], with the [message] when it is one. *)
Definition asError (v : JsValue) : option string :=
  match v with
  | VError m => Some m
  | _ => None
  end.

(** [typeof v === 'object'].  [typeof null] is ['object'] too. *)
Definition isObject (v : JsValue) : bool :=
  match v with
  | VNull | VError _ | VArray _ | VObject _ => true
  | _ => false
  end.

Fixpoint assoc (k : string) (props : list (string * JsValue)) : option JsValue :=
  match props with
  | [] => None
  | (k', v) :: rest => if String.eqb k k' then Some v else assoc k rest
  end.

(** [v.k] when [k in v]: own properties of a plain object.  An array has
    neither a [message] nor a [type] property, and the [message] of an
    [Error] is read through [asError]. *)
Definition getProp (k : string) (v : JsValue) : option JsValue :=
  match v with
  | VObject props => assoc k props
  | _ => None
  end.

(** ['k' in v && typeof v.k === 'string'] *)
Definition stringProp (k : string) (v : JsValue) : option string :=
  match getProp k v with
  | Some (VString s) => Some s
  | _ => None
  end.

End Js.

(** ** [extractErrorMessage] *)

Definition extractErrorMessage (rt : JsRuntime) (error : JsValue) : string :=
  if Js.isNullish error then "Unknown error occurred"
  else match Js.asString error with
  | Some s => s
  | None =>
  match Js.asError error with
  | Some message => message
  | None =>
  if Js.isObject error then
    match Js.stringProp "message" error with
    | Some message =>
        match Js.stringProp "type" error with
        | Some type => type +:+ ": " +:+ message
        | None => message
        end
    | None => JSON_stringify rt error
    end
  else String_ rt error
  end end.

(** ** The transcript *)

Inductive Role : Type := User | Assistant | System | Tool.

(** The [output] of a tool-result part: [{ type, value }]. *)
Inductive ToolOutput : Type :=
| OutText (value : string)
| OutJson (value : JsValue)
| OutErrorText (value : string)
| OutErrorJson (value : JsValue).

Inductive Part : Type :=
| TextPart (text : string)
| FilePart (data mediaType : string)
| ReasoningPart (text : string)
| ToolCallPart (toolCallId toolName : string) (input : JsValue)
| ToolResultPart (toolCallId toolName : string) (output : ToolOutput).

(** [content] is either a string or an array of parts. *)
Inductive Content : Type :=
| CText (text : string)
| CParts (parts : list Part).

(** [metadata]: the three fields the loop reads or writes, and whatever
    else a message of the history carries ([extra]). *)
Record Metadata : Type := {
  is_error : option bool;
  timestamp : option Z;
  session_id : option string;
  extra : list (string * JsValue);
}.

Record ChatMessage : Type := {
  role : Role;
  content : Content;
  metadata : option Metadata;
}.

Definition Role_eqb (a b : Role) : bool :=
  match a, b with
  | User, User | Assistant, Assistant | System, System | Tool, Tool => true
  | _, _ => false
  end.

(** ** Stream chunks: the cases of the [switch] *)

Inductive Chunk : Type :=
| TextDelta (text : string)
| Finish (finishReason : string)
| ErrorChunk (error : JsValue)
| ToolInputStart (id toolName : string)
| ToolInputDelta (id delta : string)
| ToolCall (toolCallId toolName : string) (input : JsValue)
| FileChunk
| AbortChunk
| SourceChunk
| ToolResult (toolCallId toolName : string) (output : JsValue)
| ToolError (toolCallId toolName : string) (error : JsValue)
| TextStart
| TextEnd
| StartStep
| FinishStep
| Start
| ToolInputEnd
| ReasoningStart
| ReasoningEnd
| ReasoningDelta (text : string)
| Raw.

(** What [fullStream] does: it yields [chunks], then either ends or throws.
    A failure before the first chunk (of [getSdkLanguageModel] or of
    [streamText]) is a stream with no chunk and a [failure]. *)
Record Stream : Type := {
  chunks : list Chunk;
  failure : option JsValue;
}.

(** What the turn runs in: the runtime, the clock and the abort signal.
    [Date_now k] is what [Date.now()] returns while the [k]-th item of the
    stream is handled; [aborted k] is [abortController.signal.aborted] when
    the [k]-th chunk is received. *)
Record Env : Type := {
  runtime : JsRuntime;
  startTime : Z;
  Date_now : nat -> Z;
  aborted : nat -> bool;
}.

(** [`session_${Date.now()}`], computed once before the [try]. *)
Definition sessionId (env : Env) : string :=
  "session_" +:+ pretty (startTime env).

(** ** The classifier of tool outputs *)

(** Modelled from the spec: the classifier of [guessToolResultOutput] on a
    payload that is not a failure.  [guessToolResultOutput] is imported
    from [./chunkToolOutputToMessageToolOutput], a file of the repository
    that is not among the sources.  The design calls it a best-effort
    classifier into the output kinds: strings and already-text-shaped
    payloads become [text], structured values become [json], and a value
    that is neither falls back to its string form.  A text-shaped payload
    is read as an object [{ type: 'text', value: <string> }]. *)
Definition classify (rt : JsRuntime) (v : JsValue) : ToolOutput :=
  match Js.asString v with
  | Some s => OutText s
  | None =>
      if Js.isObject v && negb (Js.isNullish v) then
        match Js.stringProp "type" v, Js.stringProp "value" v with
        | Some "text", Some s => OutText s
        | _, _ => OutJson v
        end
      else OutText (String_ rt v)
  end.

(** Modelled from the spec: the coercion of a classified failure, [text] to
    [error-text] and [json] to [error-json]. *)
Definition asFailure (o : ToolOutput) : ToolOutput :=
  match o with
  | OutText s => OutErrorText s
  | OutJson v => OutErrorJson v
  | OutErrorText _ | OutErrorJson _ => o
  end.

(** Modelled from the spec: [guessToolResultOutput] itself.  The loop calls
    it with the payload alone, for a tool error as for a tool result, so a
    failure is known by its payload: what a tool throws, an [Error].  By
    the design, on a failure the output is coerced to [error-text] or
    [error-json] using the same classifier applied to the error payload,
    here the message the [Error] carries; any other payload is classified
    as it is. *)
Definition guessToolResultOutput (rt : JsRuntime) (v : JsValue) : ToolOutput :=
  match Js.asError v with
  | Some message => asFailure (classify rt (VString message))
  | None => classify rt v
  end.


(** ** One pass of the loop body *)

(** [lastMessage.metadata?.is_error === true] *)
Definition flaggedError (m : ChatMessage) : bool :=
  match metadata m with
  | Some md => match is_error md with Some true => true | _ => false end
  | None => false
  end.

(** [{ ...m, content: c }] *)
Definition withContent (m : ChatMessage) (c : Content) : ChatMessage :=
  {| role := role m; content := c; metadata := metadata m |}.

(** [updatedMessages.slice(0, -1)] *)
Definition sliceInit (ms : list ChatMessage) : list ChatMessage :=
  take (length ms - 1) ms.

(** [part.type === 'tool-call' && part.toolCallId === id] *)
Definition isToolCall (id : string) (p : Part) : bool :=
  match p with
  | ToolCallPart i _ _ => String.eqb i id
  | _ => false
  end.

(** [Array.prototype.findIndex]; [None] stands for [-1]. *)
Fixpoint findIndex (f : Part -> bool) (ps : list Part) : option nat :=
  match ps with
  | [] => None
  | p :: rest => if f p then Some 0 else S <$> findIndex f rest
  end.

(** The [for (let i = n - 1; i >= 0; i--)] of the [tool-call] case, entered
    with [n = updatedMessages.length].  It stops at the first message, from
    the end, that is an assistant message with array content holding a
    tool-call part of that id, and gives its index and the message rebuilt
    with that part replaced. *)
Fixpoint scanToolCall (ms : list ChatMessage) (id name : string) (input : JsValue)
    (n : nat) : option (nat * ChatMessage) :=
  match n with
  | 0 => None
  | S i =>
      match ms !! i with
      | Some msg =>
          match role msg, content msg with
          | Assistant, CParts parts =>
              match findIndex (isToolCall id) parts with
              | Some toolCallIndex =>
                  Some (i, withContent msg
                             (CParts (<[toolCallIndex := ToolCallPart id name input]> parts)))
              | None => scanToolCall ms id name input i
              end
          | _, _ => scanToolCall ms id name input i
          end
      | None => scanToolCall ms id name input i
      end
  end.

(** What a case of the [switch] does to [updatedMessages]. *)
Inductive Assignment : Type :=
| NewArray (ms : list ChatMessage)          (* updatedMessages = [...] *)
| SetIndex (i : nat) (msg : ChatMessage)    (* updatedMessages[i] = msg *)
| NoChange.

Definition textTurn (text : string) : ChatMessage :=
  {| role := Assistant; content := CText text; metadata := None |}.

Definition toolCallTurn (id name : string) (input : JsValue) : ChatMessage :=
  {| role := Assistant; content := CParts [ToolCallPart id name input]; metadata := None |}.

Definition toolResultTurn (id name : string) (output : ToolOutput)
    (md : option Metadata) : ChatMessage :=
  {| role := Tool; content := CParts [ToolResultPart id name output]; metadata := md |}.

(** The error turn of the [error] case and of the [catch] block. *)
Definition errorTurn (env : Env) (k : nat) (errorMsg : string) : ChatMessage :=
  {| role := Assistant;
     content := CText errorMsg;
     metadata := Some {| is_error := Some true;
                         timestamp := Some (Date_now env k);
                         session_id := Some (sessionId env);
                         extra := [] |} |}.

(** The [switch (chunk.type)], on the content [ms] of the current array,
    for the [k]-th chunk. *)
Definition handleChunk (env : Env) (k : nat) (ms : list ChatMessage)
    (chunk : Chunk) : Assignment :=
  match chunk with
  | TextDelta text =>
      match last ms with
      | Some lastMessage =>
          match role lastMessage, content lastMessage, flaggedError lastMessage with
          | Assistant, CText c, false =>
              NewArray (sliceInit ms ++ [withContent lastMessage (CText (c +:+ text))])
          | _, _, _ => NewArray (ms ++ [textTurn text])
          end
      | None => NewArray (ms ++ [textTurn text])
      end
  | Finish _ => NoChange
  | ErrorChunk error =>
      NewArray (ms ++ [errorTurn env k (extractErrorMessage (runtime env) error)])
  | ToolInputStart id toolName =>
      NewArray (ms ++ [toolCallTurn id toolName (VObject [])])
  | ToolInputDelta _ _ => NoChange
  | ToolCall toolCallId toolName input =>
      match scanToolCall ms toolCallId toolName input (length ms) with
      | Some (i, msg) => SetIndex i msg
      | None => NewArray (ms ++ [toolCallTurn toolCallId toolName input])
      end
  | FileChunk | AbortChunk | SourceChunk => NoChange
  | ToolResult toolCallId toolName output =>
      NewArray (ms ++ [toolResultTurn toolCallId toolName
                         (guessToolResultOutput (runtime env) output) None])
  | ToolError toolCallId toolName error =>
      NewArray (ms ++ [toolResultTurn toolCallId toolName
                         (guessToolResultOutput (runtime env) error)
                         (Some {| is_error := Some true; timestamp := None;
                                  session_id := None; extra := [] |})])
  | TextStart | TextEnd | StartStep | FinishStep | Start | ToolInputEnd
  | ReasoningStart | ReasoningEnd | ReasoningDelta _ | Raw => NoChange
  end.

(** The content of the current array after the assignment. *)
Definition applyAssignment (ms : list ChatMessage) (a : Assignment) : list ChatMessage :=
  match a with
  | NewArray ms' => ms'
  | SetIndex i msg => <[i := msg]> ms
  | NoChange => ms
  end.

Definition applyChunk (env : Env) (k : nat) (ms : list ChatMessage) (c : Chunk)
    : list ChatMessage :=
  applyAssignment ms (handleChunk env k ms c).

(** The content of the transcript after the chunks [cs], the first of which
    is the [k]-th of the stream, when the signal is not set meanwhile. *)
Fixpoint processChunks (env : Env) (k : nat) (ms : list ChatMessage)
    (cs : list Chunk) : list ChatMessage :=
  match cs with
  | [] => ms
  | c :: rest => processChunks env (S k) (applyChunk env k ms c) rest
  end.

(** ** The arrays and the observer *)

(** [heap] holds every message array built so far, [updatedMessages] is the
    index of the one the variable refers to, and [delivered] lists the calls
    of [onMessage]: the array passed and what it held at the call. *)
Record Machine : Type := {
  heap : list (list ChatMessage);
  updatedMessages : nat;
  delivered : list (nat * list ChatMessage);
}.

(** [let updatedMessages = conversationHistory]: the caller's array is
    array 0, and the variable refers to it. *)
Definition start (conversationHistory : list ChatMessage) : Machine :=
  {| heap := [conversationHistory]; updatedMessages := 0; delivered := [] |}.

Definition current (m : Machine) : list ChatMessage :=
  default [] (heap m !! updatedMessages m).

Definition assign (m : Machine) (a : Assignment) : Machine :=
  match a with
  | NewArray ms =>
      {| heap := heap m ++ [ms];
         updatedMessages := length (heap m);
         delivered := delivered m |}
  | SetIndex i msg =>
      {| heap := <[updatedMessages m := <[i := msg]> (current m)]> (heap m);
         updatedMessages := updatedMessages m;
         delivered := delivered m |}
  | NoChange => m
  end.

Definition onMessage (m : Machine) : Machine :=
  {| heap := heap m;
     updatedMessages := updatedMessages m;
     delivered := delivered m ++ [(updatedMessages m, current m)] |}.

(** The body of the [for await], after the abort check. *)
Definition step (env : Env) (k : nat) (m : Machine) (c : Chunk) : Machine :=
  onMessage (assign m (handleChunk env k (current m) c)).

(** [new Error('Operation cancelled')] *)
Definition cancelled : JsValue := VError "Operation cancelled".

(** The [for await] loop from the [k]-th chunk on: the machine when it is
    left, the number of chunks received, and what was thrown, if anything. *)
Fixpoint loop (env : Env) (k : nat) (m : Machine) (cs : list Chunk)
    : Machine * nat * option JsValue :=
  match cs with
  | [] => (m, k, None)
  | c :: rest =>
      if aborted env k then (m, k, Some cancelled)
      else loop env (S k) (step env k m c) rest
  end.

Inductive Outcome : Type :=
| Returned (array : nat)      (* return updatedMessages *)
| Raised (error : JsValue).   (* throw error *)

(** The [catch] block. *)
Definition catch (env : Env) (k : nat) (m : Machine) (error : JsValue) : Machine :=
  onMessage
    (assign m (NewArray (current m ++
                         [errorTurn env k (extractErrorMessage (runtime env) error)]))).

(** [query(conversationHistory, abortController, onMessage)], once the
    working directory is set up. *)
Definition query (env : Env) (conversationHistory : list ChatMessage)
    (stream : Stream) : Outcome * Machine :=
  let '(m, k, thrown) := loop env 0 (start conversationHistory) (chunks stream) in
  match (match thrown with Some e => Some e | None => failure stream end) with
  | None => (Returned (updatedMessages m), m)
  | Some error => (Raised error, catch env k m error)
  end.

(** What the caller has at the end: the content of the returned array, or,
    when [query] throws, of the array last passed to [onMessage]. *)
Definition finalTranscript (r : Outcome * Machine) : list ChatMessage :=
  current (snd r).

(** The contents the observer saw, call after call. *)
Definition snapshots (r : Outcome * Machine) : list (list ChatMessage) :=
  (snd <$> delivered (snd r)).

(** ** A runtime and an environment for closed examples *)

Module Sample.

Definition quote : string := String (Ascii.ascii_of_nat 34) EmptyString.

Definition commas (l : list string) : string :=
  match l with
  | [] => EmptyString
  | x :: rest => x +:+ String.concat EmptyString (map (fun y => "," +:+ y) rest)
  end.

(** [JSON.stringify] on values without [undefined] members and on strings
    without a character that JSON escapes. *)
Fixpoint stringify (v : JsValue) : string :=
  match v with
  | VNull | VUndefined => "null"
  | VBool true => "true"
  | VBool false => "false"
  | VNumber n => pretty n
  | VString s => quote +:+ s +:+ quote
  | VError _ => "{}"
  | VArray items => "[" +:+ commas (map stringify items) +:+ "]"
  | VObject props =>
      "{" +:+ commas (map (fun kv => quote +:+ fst kv +:+ quote +:+ ":" +:+ stringify (snd kv)) props)
          +:+ "}"
  end.

(** [String(v)] on booleans and numbers, the values on which the code
    calls it. *)
Definition toString (v : JsValue) : string :=
  match v with
  | VBool true => "true"
  | VBool false => "false"
  | VNumber n => pretty n
  | _ => stringify v
  end.

Definition rt : JsRuntime := {| JSON_stringify := stringify; String_ := toString |}.

(** A turn started at time 1000, the [k]-th chunk handled at [1001 + k],
    the signal never set. *)
Definition env : Env :=
  {| runtime := rt;
     startTime := 1000;
     Date_now := fun k => (1001 + Z.of_nat k)%Z;
     aborted := fun _ => false |}.

(** The same turn with the signal set from the start. *)
Definition envAborted : Env :=
  {| runtime := rt;
     startTime := 1000;
     Date_now := fun k => (1001 + Z.of_nat k)%Z;
     aborted := fun _ => true |}.

Definition userTurn (text : string) : ChatMessage :=
  {| role := User; content := CText text; metadata := None |}.

End Sample.

(** ** Notions used in the statements *)

(** The concatenation of the fragments, in order. *)
Definition joinText (frags : list string) : string :=
  foldr String.append EmptyString frags.

(** The variable refers to an array that exists. *)
Definition wellFormed (m : Machine) : Prop :=
  updatedMessages m < length (heap m).

(** The test of the scan on one message: an assistant message with array
    content that holds a tool-call part of that id. *)
Definition hasToolCall (id : string) (msg : ChatMessage) : bool :=
  match role msg, content msg with
  | Assistant, CParts parts =>
      match findIndex (isToolCall id) parts with Some _ => true | None => false end
  | _, _ => false
  end.

(** [part.type === 'tool-call'] *)
Definition isToolCallPart (p : Part) : bool :=
  match p with ToolCallPart _ _ _ => true | _ => false end.

(** The tool-call parts of some turns, in order. *)
Definition toolCallParts (ms : list ChatMessage) : list Part :=
  concat ((fun m => match content m with
                    | CParts parts => List.filter isToolCallPart parts
                    | CText _ => []
                    end) <$> ms).

(** The test of the [text-delta] case on the last message. *)
Definition canMerge (m : ChatMessage) : bool :=
  match role m, content m, flaggedError m with
  | Assistant, CText _, false => true
  | _, _, _ => false
  end.

(** The transcript ends with a message that passes that test. *)
Definition endsMergeable (ms : list ChatMessage) : bool :=
  match last ms with
  | Some l => canMerge l
  | None => false
  end.




(** A call to [write] is opened, then finalized. *)
Definition openThenFinalize : Stream :=
  {| chunks := [ToolInputStart "t1" "write";
                ToolCall "t1" "write" (VObject [("path", VString "a.html")])];
     failure := None |}.

(** The chunks whose case assigns nothing. *)
Definition quiet (c : Chunk) : bool :=
  match c with
  | TextDelta _ | ErrorChunk _ | ToolInputStart _ _ | ToolCall _ _ _
  | ToolResult _ _ _ | ToolError _ _ _ => false
  | _ => true
  end.

(** The transcripts after each of the chunks [cs], in order. *)
Fixpoint trace (env : Env) (k : nat) (ms : list ChatMessage) (cs : list Chunk)
    : list (list ChatMessage) :=
  match cs with
  | [] => []
  | c :: rest => applyChunk env k ms c :: trace env (S k) (applyChunk env k ms c) rest
  end.

(** The number of chunks processed before the signal is found set. *)
Fixpoint consumed (env : Env) (k : nat) (cs : list Chunk) : nat :=
  match cs with
  | [] => 0
  | c :: rest => if aborted env k then 0 else S (consumed env (S k) rest)
  end.

(** A part stays, or a tool-call part is replaced by a tool-call part of
    the same id (its input completed). *)
Definition partGrows (p p' : Part) : Prop :=
  p = p' \/
  exists id name name' input input',
    p = ToolCallPart id name input /\ p' = ToolCallPart id name' input'.

(** Text is continued; an array of parts keeps its length, part by part. *)
Definition contentGrows (c c' : Content) : Prop :=
  match c, c' with
  | CText s, CText s' => exists more, s' = s +:+ more
  | CParts ps, CParts ps' => Forall2 partGrows ps ps'
  | _, _ => False
  end.

(** A turn keeps its role and its metadata, and its content grows. *)
Definition turnGrows (t t' : ChatMessage) : Prop :=
  role t' = role t /\ metadata t' = metadata t /\ contentGrows (content t) (content t').

(** [ms'] has every turn of [ms], at its position and possibly grown, and
    possibly more turns after them. *)
Definition extends (ms ms' : list ChatMessage) : Prop :=
  exists kept new, ms' = kept ++ new /\ Forall2 turnGrows ms kept.





(** The text chunks, and the chunks whose case assigns nothing: what a run
    of fragments is made of when no tool or error event comes in between. *)
Definition textOrQuiet (c : Chunk) : bool :=
  match c with
  | TextDelta _ => true
  | _ => quiet c
  end.

(** The texts of the text chunks, in order. *)
Definition fragments (cs : list Chunk) : list string :=
  omap (fun c => match c with TextDelta text => Some text | _ => None end) cs.

(** What may separate a snapshot [s] from the next one [s'] in a turn over
    the chunks [cs]: nothing; one turn appended; text added at the end of
    the last turn; or one tool-call part replaced by the part of a
    [tool-call] chunk of [cs] that has its id.  Every other turn and part,
    and the role and metadata of the turn that changes, are as they were. *)
Definition mergeStep (cs : list Chunk) (s s' : list ChatMessage) : Prop :=
  s' = s \/
  (exists t, s' = s ++ [t]) \/
  (exists front l c more,
     s = front ++ [l] /\ content l = CText c /\
     s' = front ++ [withContent l (CText (c +:+ more))]) \/
  (exists i msg parts j id name name' input input',
     s !! i = Some msg /\ content msg = CParts parts /\
     parts !! j = Some (ToolCallPart id name input) /\
     ToolCall id name' input' ∈ cs /\
     s' = <[i := withContent msg (CParts (<[j := ToolCallPart id name' input']> parts))]> s).


(** ** Further notions: what the transcript says, who speaks, how a turn ends *)

(** The text a chunk adds to the transcript: a fragment, or the message of
    a stream error. *)
Definition chunkText (rt : JsRuntime) (c : Chunk) : string :=
  match c with
  | TextDelta text => text
  | ErrorChunk error => extractErrorMessage rt error
  | _ => EmptyString
  end.

(** The plain-text contents of the turns, one after the other. *)
Definition narrative (ms : list ChatMessage) : string :=
  joinText (omap (fun m => match content m with
                           | CText s => Some s
                           | CParts _ => None
                           end) ms).

(** The [tool-result] and [tool-error] chunks. *)
Definition isToolOutcome (c : Chunk) : bool :=
  match c with
  | ToolResult _ _ _ | ToolError _ _ _ => true
  | _ => false
  end.

(** The [tool-call] chunks. *)
Definition isFinalize (c : Chunk) : bool :=
  match c with
  | ToolCall _ _ _ => true
  | _ => false
  end.

Definition countRole (r : Role) (ms : list ChatMessage) : nat :=
  length (List.filter (fun m => Role_eqb (role m) r) ms).

Definition countChunks (f : Chunk -> bool) (cs : list Chunk) : nat :=
  length (List.filter f cs).

(** What ends the turn with a [throw]: the cancellation error when the
    signal is found set as a chunk arrives, else the failure of the stream,
    if it has one. *)
Definition thrownBy (env : Env) (stream : Stream) : option JsValue :=
  if consumed env 0 (chunks stream) <? length (chunks stream)
  then Some cancelled
  else failure stream.

(** Some assistant turn holds this tool-call part. *)
Definition recordsCall (ms : list ChatMessage) (id name : string) (input : JsValue) : Prop :=
  exists i msg parts j,
    ms !! i = Some msg /\ role msg = Assistant /\ content msg = CParts parts /\
    parts !! j = Some (ToolCallPart id name input).

(** The caller's array holds the history, and every array the observer
    received holds what it held when it was received. *)
Definition arraysKept (history : list ChatMessage) (m : Machine) : Prop :=
  wellFormed m /\
  heap m !! 0 = Some history /\
  forall array seen, (array, seen) ∈ delivered m -> heap m !! array = Some seen.

(** ** The chat panel: its state reducer and its context messages *)

Module Css.

(** An entry of [state.css]: [{ filePath, content?, error? }].  The patch
    of [getCssFileContent] has the same fields. *)
Record Entry : Type := {
  filePath : string;
  content : option string;
  error : option string;
}.

End Css.

Module Chat.

(** [ChatSidebarState]: the css files fetched so far, by path, and the
    messages, [undefined] until they are loaded. *)
Record ChatSidebarState : Type := {
  css : gmap string Css.Entry;
  messages : option (list ChatMessage);
}.

(** The four functions of [postReducer]. *)
Definition getCssFileContent (prevState : ChatSidebarState) (patch : Css.Entry)
    : ChatSidebarState :=
  {| css := <[Css.filePath patch :=
                {| Css.filePath := Css.filePath patch;
                   Css.content := Css.content patch;
                   Css.error := Css.error patch |}]> (css prevState);
     messages := messages prevState |}.

Definition loadChats (prevState : ChatSidebarState) (patch : list ChatMessage)
    : ChatSidebarState :=
  {| css := css prevState; messages := Some patch |}.

Definition clearChats (prevState : ChatSidebarState) : ChatSidebarState :=
  {| css := css prevState; messages := Some [] |}.

Definition sendChatMessage (prevState : ChatSidebarState) : ChatSidebarState :=
  prevState.

(** The keys of [postReducer], with their patches. *)
Inductive Action : Type :=
| GetCssFileContent (patch : Css.Entry)
| LoadChats (patch : list ChatMessage)
| ClearChats
| SendChatMessage.

Definition reduce (state : ChatSidebarState) (a : Action) : ChatSidebarState :=
  match a with
  | GetCssFileContent patch => getCssFileContent state patch
  | LoadChats patch => loadChats state patch
  | ClearChats => clearChats state
  | SendChatMessage => sendChatMessage state
  end.

(** The last patch for the path [p] among the actions, if any. *)
Fixpoint lastCssPatch (p : string) (actions : list Action) : option Css.Entry :=
  match actions with
  | [] => None
  | a :: rest =>
      match lastCssPatch p rest with
      | Some e => Some e
      | None =>
          match a with
          | GetCssFileContent patch =>
              if String.eqb (Css.filePath patch) p then Some patch else None
          | _ => None
          end
      end
  end.

(** The messages set by the last [loadChats] or [clearChats] among the
    actions, if any. *)
Fixpoint lastMessages (actions : list Action) : option (list ChatMessage) :=
  match actions with
  | [] => None
  | a :: rest =>
      match lastMessages rest with
      | Some l => Some l
      | None =>
          match a with
          | LoadChats patch => Some patch
          | ClearChats => Some []
          | _ => None
          end
      end
  end.

(** The state [useVscodeState] starts from. *)
Definition initialState : ChatSidebarState :=
  {| css := ∅; messages := None |}.

(** [(state.messages?.length ?? 0) > 0] *)
Definition hasConversationMessages (state : ChatSidebarState) : bool :=
  match messages state with
  | Some l => 0 <? length l
  | None => false
  end.

(** [state.messages === undefined] *)
Definition isChatHistoryLoading (state : ChatSidebarState) : bool :=
  match messages state with
  | Some _ => false
  | None => true
  end.

(** The line feed, and the two literals of the context format. *)
Definition lineFeed : string := String (Ascii.ascii_of_nat 10) EmptyString.

Definition contextMark : string := "Context: ".

Definition messageMark : string :=
  Eval vm_compute in (lineFeed +:+ lineFeed +:+ "Message: ").

(** [`Context: ${fileName}\n\nMessage: ${inputMessage}`], the content
    [handleSendMessage] sends for a context that is not an image. *)
Definition contextMessage (fileName inputMessage : string) : string :=
  contextMark +:+ fileName +:+ messageMark +:+ inputMessage.

(** [s] without the prefix [p], when it starts with it. *)
Fixpoint stripPrefix (p s : string) : option string :=
  match p, s with
  | EmptyString, _ => Some s
  | String a p', String b s' => if Ascii.eqb a b then stripPrefix p' s' else None
  | String _ _, EmptyString => None
  end.

(** [s.includes(needle)] *)
Fixpoint includes (needle s : string) : bool :=
  match stripPrefix needle s with
  | Some _ => true
  | None =>
      match s with
      | EmptyString => false
      | String _ s' => includes needle s'
      end
  end.

(** The pattern after the first character of its first group: any
    characters, the mark, and at least one character up to the end.  The
    first group is greedy and, with the [s] flag, runs over line feeds, so
    the split is at the last mark that has something after it. *)
Fixpoint greedySplit (s : string) : option (string * string) :=
  match s with
  | EmptyString => None
  | String c s' =>
      match greedySplit s' with
      | Some (p, q) => Some (String c p, q)
      | None =>
          match stripPrefix messageMark s with
          | Some (String d q) => Some (EmptyString, String d q)
          | _ => None
          end
      end
  end.

(** The test and the match of [renderChatMessage] on the text of a message
    that is not the assistant's:
    [messageText.startsWith('Context: ') &&
     messageText.includes('\n\nMessage: ')], then
    [messageText.match(/^Context: (.+)\n\nMessage: (.+)$/s)].  The result
    is [(contextFile, actualMessage)]. *)
Definition matchContext (messageText : string) : option (string * string) :=
  if String.prefix contextMark messageText && includes messageMark messageText then
    match stripPrefix contextMark messageText with
    | Some (String c rest) =>
        match greedySplit rest with
        | Some (p, q) => Some (String c p, q)
        | None => None
        end
    | _ => None
    end
  else None.

End Chat.

(** * Properties *)

(** ** Strings and records *)

Lemma append_assoc (a b c : string) : (a +:+ b) +:+ c = a +:+ (b +:+ c).
Proof.
  induction a as [|x a IH]; [reflexivity|].
  change (String x ((a +:+ b) +:+ c) = String x (a +:+ (b +:+ c))). by rewrite IH.
Qed.

Lemma append_empty_r (a : string) : a +:+ EmptyString = a.
Proof.
  induction a as [|x a IH]; [reflexivity|].
  change (String x (a +:+ EmptyString) = String x a). by rewrite IH.
Qed.

(** ** The arrays *)

Lemma wellFormed_start history : wellFormed (start history).
Proof. unfold wellFormed; simpl; lia. Qed.

Lemma current_start history : current (start history) = history.
Proof. reflexivity. Qed.

Lemma current_NewArray m ms : current (assign m (NewArray ms)) = ms.
Proof.
  unfold current; simpl.
  rewrite lookup_app_r by lia. by rewrite Nat.sub_diag.
Qed.

Lemma current_assign m a :
  wellFormed m -> current (assign m a) = applyAssignment (current m) a.
Proof.
  intros Hwf. destruct a as [ms|i msg|]; simpl.
  - apply current_NewArray.
  - unfold current at 1; simpl. by rewrite list_lookup_insert_eq.
  - reflexivity.
Qed.

Lemma wellFormed_assign m a : wellFormed m -> wellFormed (assign m a).
Proof.
  unfold wellFormed. destruct a; simpl; intros H.
  - rewrite length_app; simpl; lia.
  - by rewrite length_insert.
  - done.
Qed.

Lemma current_onMessage m : current (onMessage m) = current m.
Proof. reflexivity. Qed.

Lemma wellFormed_step env k m c : wellFormed m -> wellFormed (step env k m c).
Proof. intros H. unfold step, onMessage, wellFormed; simpl. by apply wellFormed_assign. Qed.

Lemma current_step env k m c :
  wellFormed m -> current (step env k m c) = applyChunk env k (current m) c.
Proof.
  intros H. unfold step. rewrite current_onMessage. by apply current_assign.
Qed.

Lemma delivered_assign m a : delivered (assign m a) = delivered m.
Proof. by destruct a. Qed.

Lemma delivered_step env k m c :
  wellFormed m ->
  delivered (step env k m c) =
    delivered m ++ [(updatedMessages (step env k m c), applyChunk env k (current m) c)].
Proof.
  intros H. unfold step, onMessage. simpl.
  by rewrite delivered_assign, current_assign.
Qed.

(** While the signal stays unset the loop consumes every chunk, and the
    current array then holds [processChunks] of what it held. *)
Lemma loop_not_aborted env cs : forall k m,
  wellFormed m ->
  (forall j, k <= j < k + length cs -> aborted env j = false) ->
  exists m',
    loop env k m cs = (m', k + length cs, None) /\
    wellFormed m' /\
    current m' = processChunks env k (current m) cs.
Proof.
  induction cs as [|c cs IH]; intros k m Hwf Hab; simpl in *.
  - exists m. by rewrite Nat.add_0_r.
  - rewrite Hab by lia.
    destruct (IH (S k) (step env k m c)) as (m' & Hl & Hwf' & Hc).
    + by apply wellFormed_step.
    + intros j Hj. apply Hab. lia.
    + exists m'. rewrite Hl, Hc, current_step by done.
      split_and!; [f_equal; f_equal; lia | done | done].
Qed.

(** A stream that ends normally, with the signal never set: [query] returns
    the array holding [processChunks] of the history. *)
Lemma query_returns env history stream :
  failure stream = None ->
  (forall j, j < length (chunks stream) -> aborted env j = false) ->
  exists array,
    fst (query env history stream) = Returned array /\
    finalTranscript (query env history stream) =
      processChunks env 0 history (chunks stream).
Proof.
  intros Hf Hab.
  destruct (loop_not_aborted env (chunks stream) 0 (start history))
    as (m' & Hl & _ & Hc).
  - apply wellFormed_start.
  - intros j Hj. apply Hab. lia.
  - unfold query, finalTranscript. rewrite Hl, Hf. simpl.
    exists (updatedMessages m'). split; [done|]. by rewrite Hc.
Qed.

(** ** The error-message normalizer *)

(** A string that spells the generic message is returned verbatim, so the
    generic message does not tell that the input was [null] or
    [undefined]. *)
Lemma generic_message_from_a_string :
  ~ (forall rt v,
       extractErrorMessage rt v = "Unknown error occurred" <->
       (v = VNull \/ v = VUndefined)).
Proof.
  intros H.
  destruct (H Sample.rt (VString "Unknown error occurred")) as [H1 _].
  destruct (H1 eq_refl) as [E|E]; discriminate E.
Qed.

(** C9, amended.  [extractErrorMessage] returns, the cases being tried in
    this order: the generic message when the input is [null] or
    [undefined]; a string verbatim; the [message] of an [Error];
    ["type: message"] for an object with a string [message] and a string
    [type]; the [message] for an object with a string [message] only;
    [JSON.stringify] of any other object; [String] of any other value. *)
Theorem extractErrorMessage_cases (rt : JsRuntime) (v : JsValue) :
  (Js.isNullish v = true -> extractErrorMessage rt v = "Unknown error occurred") /\
  (forall s, Js.asString v = Some s -> extractErrorMessage rt v = s) /\
  (forall message, Js.asError v = Some message -> extractErrorMessage rt v = message) /\
  (Js.isNullish v = false -> Js.asError v = None -> Js.isObject v = true ->
     (forall message type,
        Js.stringProp "message" v = Some message ->
        Js.stringProp "type" v = Some type ->
        extractErrorMessage rt v = type +:+ ": " +:+ message) /\
     (forall message,
        Js.stringProp "message" v = Some message ->
        Js.stringProp "type" v = None ->
        extractErrorMessage rt v = message) /\
     (Js.stringProp "message" v = None ->
        extractErrorMessage rt v = JSON_stringify rt v)) /\
  (Js.isNullish v = false -> Js.asString v = None -> Js.isObject v = false ->
     extractErrorMessage rt v = String_ rt v).
Proof.
  unfold extractErrorMessage.
  destruct v; simpl; split_and!; intros; simplify_eq; try done.
  all: split_and!; intros; simplify_eq; try done.
  all: repeat match goal with H : _ = _ |- _ => rewrite H end; done.
Qed.

(** The cases above leave no value out. *)
Lemma extractErrorMessage_case_split (v : JsValue) :
  Js.isNullish v = true \/
  (exists s, Js.asString v = Some s) \/
  (exists message, Js.asError v = Some message) \/
  (Js.isNullish v = false /\ Js.asError v = None /\ Js.isObject v = true) \/
  (Js.isNullish v = false /\ Js.asString v = None /\ Js.isObject v = false).
Proof. destruct v; simpl; eauto 10. Qed.

Lemma extractErrorMessage_witness :
  extractErrorMessage Sample.rt
    (VObject [("type", VString "overloaded_error"); ("message", VString "Overloaded")])
  = "overloaded_error: Overloaded".
Proof.
  destruct (extractErrorMessage_cases Sample.rt
              (VObject [("type", VString "overloaded_error");
                        ("message", VString "Overloaded")]))
    as (_ & _ & _ & H & _).
  destruct (H eq_refl eq_refl eq_refl) as (H1 & _).
  exact (H1 _ _ eq_refl eq_refl).
Defined.

(** ** The backward scan of the [tool-call] case *)

Lemma isToolCall_same id name input : isToolCall id (ToolCallPart id name input) = true.
Proof. apply String.eqb_refl. Qed.

Lemma isToolCall_other id id' name input :
  id' <> id -> isToolCall id (ToolCallPart id' name input) = false.
Proof. intros H. by apply String.eqb_neq. Qed.


Lemma findIndex_Some f ps j :
  findIndex f ps = Some j -> exists p, ps !! j = Some p /\ f p = true.
Proof.
  revert j. induction ps as [|p ps IH]; intros j; simpl; [discriminate|].
  destruct (f p) eqn:Hp.
  - intros [= <-]. eauto.
  - destruct (findIndex f ps) as [j'|]; simpl; [|discriminate].
    intros [= <-]. by apply IH.
Qed.

Lemma findIndex_insert f ps j x :
  findIndex f ps = Some j -> f x = true -> findIndex f (<[j := x]> ps) = Some j.
Proof.
  revert j. induction ps as [|p ps IH]; intros j; simpl; [discriminate|].
  destruct (f p) eqn:Hp.
  - intros [= <-] Hx. simpl. by rewrite Hx.
  - destruct (findIndex f ps) as [j'|] eqn:Hj; simpl; [|discriminate].
    intros [= <-] Hx. simpl. rewrite Hp. by rewrite (IH j').
Qed.

Lemma scan_hit ms id name input i msg parts j :
  ms !! i = Some msg -> role msg = Assistant -> content msg = CParts parts ->
  findIndex (isToolCall id) parts = Some j ->
  scanToolCall ms id name input (S i) =
    Some (i, withContent msg (CParts (<[j := ToolCallPart id name input]> parts))).
Proof.
  intros Hi Hr Hc Hj. cbn [scanToolCall]. by rewrite Hi, Hr, Hc, Hj.
Qed.

Lemma scan_miss ms id name input i msg :
  ms !! i = Some msg -> hasToolCall id msg = false ->
  scanToolCall ms id name input (S i) = scanToolCall ms id name input i.
Proof.
  intros Hi. unfold hasToolCall. simpl. rewrite Hi.
  destruct (role msg), (content msg); try done.
  by destruct (findIndex _ _).
Qed.

(** What the scan returns: the index of a message that passes the test and
    that message with the first matching part replaced. *)
Lemma scan_spec ms id name input n i msg' :
  scanToolCall ms id name input n = Some (i, msg') ->
  i < n /\
  exists msg parts j,
    ms !! i = Some msg /\ role msg = Assistant /\ content msg = CParts parts /\
    findIndex (isToolCall id) parts = Some j /\
    msg' = withContent msg (CParts (<[j := ToolCallPart id name input]> parts)).
Proof.
  induction n as [|n IH]; [discriminate|].
  destruct (ms !! n) as [msg|] eqn:Hm.
  - destruct (hasToolCall id msg) eqn:Hh.
    + unfold hasToolCall in Hh.
      destruct (role msg) eqn:Hr; try done.
      destruct (content msg) as [|parts] eqn:Hc; try done.
      destruct (findIndex (isToolCall id) parts) as [j|] eqn:Hj; [|done].
      rewrite (scan_hit ms id name input n msg parts j) by done.
      intros [= <- <-]. split; [lia|]. by exists msg, parts, j.
    + rewrite (scan_miss ms id name input n msg) by done.
      intros H. destruct (IH H) as [Hlt Hex]. split; [lia | done].
  - simpl. rewrite Hm. intros H. destruct (IH H) as [Hlt Hex]. split; [lia | done].
Qed.

(** Every message the scan walked past fails the test. *)
Lemma scan_None ms id name input n :
  scanToolCall ms id name input n = None ->
  forall i msg, i < n -> ms !! i = Some msg -> hasToolCall id msg = false.
Proof.
  induction n as [|n IH]; intros H i msg Hi Hm; [lia|].
  destruct (ms !! n) as [msg0|] eqn:Hm0.
  - destruct (hasToolCall id msg0) eqn:Hh.
    + unfold hasToolCall in Hh.
      destruct (role msg0) eqn:Hr; try done.
      destruct (content msg0) as [|parts] eqn:Hc; try done.
      destruct (findIndex (isToolCall id) parts) as [j|] eqn:Hj; [|done].
      by rewrite (scan_hit ms id name input n msg0 parts j) in H.
    + rewrite (scan_miss ms id name input n msg0) in H by done.
      destruct (decide (i = n)) as [->|Hne]; [congruence|].
      apply (IH H i msg); [lia | done].
  - simpl in H. rewrite Hm0 in H.
    apply lookup_ge_None in Hm0. pose proof (lookup_lt_Some _ _ _ Hm) as Hlt.
    apply (IH H i msg); [lia | done].
Qed.

(** Scanning again after the assignment finds the same message, already in
    its final form. *)
Lemma scan_again ms id name input n i msg' :
  n <= length ms ->
  scanToolCall ms id name input n = Some (i, msg') ->
  scanToolCall (<[i := msg']> ms) id name input n = Some (i, msg').
Proof.
  induction n as [|n IH]; intros Hn; [discriminate|].
  destruct (ms !! n) as [msg|] eqn:Hm.
  2:{ apply lookup_ge_None in Hm. lia. }
  destruct (hasToolCall id msg) eqn:Hh.
  - unfold hasToolCall in Hh.
    destruct (role msg) eqn:Hr; try done.
    destruct (content msg) as [|parts] eqn:Hc; try done.
    destruct (findIndex (isToolCall id) parts) as [j|] eqn:Hj; [|done].
    rewrite (scan_hit ms id name input n msg parts j) by done.
    intros [= <- <-].
    rewrite (scan_hit _ id name input n
               (withContent msg (CParts (<[j := ToolCallPart id name input]> parts)))
               (<[j := ToolCallPart id name input]> parts) j).
    + unfold withContent; simpl. by rewrite list_insert_insert_eq.
    + apply list_lookup_insert_eq. lia.
    + done.
    + done.
    + apply findIndex_insert; [done | apply isToolCall_same].
  - rewrite (scan_miss ms id name input n msg) by done.
    intros H. destruct (scan_spec _ _ _ _ _ _ _ H) as [Hlt _].
    rewrite (scan_miss _ id name input n msg).
    + apply IH; [lia | done].
    + rewrite list_lookup_insert_ne by lia. done.
    + done.
Qed.

(** ** Finalizing a tool call twice *)

(** C8.  Applying the same finalized tool call (same id, tool name and
    input) a second time leaves the transcript as the first application
    left it. *)
Theorem tool_call_idempotent (env : Env) (k k' : nat) (ms : list ChatMessage)
    (id name : string) (input : JsValue) :
  applyChunk env k' (applyChunk env k ms (ToolCall id name input)) (ToolCall id name input)
  = applyChunk env k ms (ToolCall id name input).
Proof.
  unfold applyChunk at 2 3. simpl.
  destruct (scanToolCall ms id name input (length ms)) as [[i msg']|] eqn:Hs; simpl.
  - unfold applyChunk; simpl. rewrite length_insert.
    rewrite (scan_again ms id name input (length ms) i msg') by done.
    simpl. by rewrite list_insert_insert_eq.
  - unfold applyChunk; simpl. rewrite length_app; simpl.
    rewrite Nat.add_1_r.
    rewrite (scan_hit _ id name input (length ms) (toolCallTurn id name input)
               [ToolCallPart id name input] 0).
    + simpl. rewrite insert_app_r_alt by lia. by rewrite Nat.sub_diag.
    + rewrite lookup_app_r by lia. by rewrite Nat.sub_diag.
    + done.
    + done.
    + simpl. by rewrite String.eqb_refl.
Qed.

Lemma scan_skip ms id name input lo n :
  lo <= n ->
  (forall i msg, lo <= i < n -> ms !! i = Some msg -> hasToolCall id msg = false) ->
  scanToolCall ms id name input n = scanToolCall ms id name input lo.
Proof.
  induction n as [|n IH]; intros Hle Hmiss.
  - by replace lo with 0 by lia.
  - destruct (decide (lo = S n)) as [->|Hne]; [done|].
    transitivity (scanToolCall ms id name input n).
    + destruct (ms !! n) as [msg|] eqn:Hm.
      * apply (scan_miss ms id name input n msg); [done|].
        apply (Hmiss n); [lia | done].
      * simpl. by rewrite Hm.
    + apply IH; [lia|]. intros i msg Hi. apply Hmiss. lia.
Qed.

(** The [tool-call] case when the message at [length front] passes the
    test and none after it does. *)
Lemma tool_call_updates env k front msg back id name input parts j :
  role msg = Assistant -> content msg = CParts parts ->
  findIndex (isToolCall id) parts = Some j ->
  Forall (fun m => hasToolCall id m = false) back ->
  applyChunk env k (front ++ msg :: back) (ToolCall id name input) =
    front ++ withContent msg (CParts (<[j := ToolCallPart id name input]> parts)) :: back.
Proof.
  intros Hr Hc Hj Hback. unfold applyChunk; simpl.
  rewrite (scan_skip _ id name input (S (length front))).
  - rewrite (scan_hit _ id name input (length front) msg parts j); try done.
    + simpl. rewrite insert_app_r_alt by lia. by rewrite Nat.sub_diag.
    + rewrite lookup_app_r by lia. by rewrite Nat.sub_diag.
  - rewrite length_app; simpl; lia.
  - intros i m Hi Hm.
    rewrite lookup_app_r in Hm by lia.
    destruct (i - length front) as [|i'] eqn:Hd; [lia|]. simpl in Hm.
    rewrite Forall_lookup in Hback. by apply (Hback i').
Qed.

Lemma processChunks_nil env k ms : processChunks env k ms [] = ms.
Proof. reflexivity. Qed.

Lemma processChunks_cons env k ms c cs :
  processChunks env k ms (c :: cs) = processChunks env (S k) (applyChunk env k ms c) cs.
Proof. reflexivity. Qed.


Lemma applyChunk_ToolInputStart env k ms id name :
  applyChunk env k ms (ToolInputStart id name) = ms ++ [toolCallTurn id name (VObject [])].
Proof. reflexivity. Qed.

(** ** Two tool calls in flight *)

(** C2.  Open A, open B, finalize B, finalize A, with distinct ids: the
    four chunks add two assistant turns that hold exactly two tool-call
    parts, the one of id A with the input finalized for A and the one of id
    B with the input finalized for B. *)
Theorem interleaved_tool_calls (env : Env) (k : nat) (ms : list ChatMessage)
    (A B nameA nameB nameA' nameB' : string) (inputA inputB : JsValue) :
  A <> B ->
  let new := [toolCallTurn A nameA' inputA; toolCallTurn B nameB' inputB] in
  processChunks env k ms
    [ToolInputStart A nameA; ToolInputStart B nameB;
     ToolCall B nameB' inputB; ToolCall A nameA' inputA] = ms ++ new /\
  toolCallParts new = [ToolCallPart A nameA' inputA; ToolCallPart B nameB' inputB].
Proof.
  intros Hne new. split; [|reflexivity].
  rewrite !processChunks_cons, processChunks_nil, !applyChunk_ToolInputStart.
  rewrite (tool_call_updates env _ (ms ++ [toolCallTurn A nameA (VObject [])])
             (toolCallTurn B nameB (VObject [])) [] B nameB' inputB
             [ToolCallPart B nameB (VObject [])] 0); try done.
  2:{ simpl. by rewrite String.eqb_refl. }
  rewrite <- (app_assoc ms). cbn [app].
  rewrite (tool_call_updates env _ ms (toolCallTurn A nameA (VObject [])) _
             A nameA' inputA [ToolCallPart A nameA (VObject [])] 0); try done.
  - simpl. by rewrite String.eqb_refl.
  - constructor; [|done]. unfold hasToolCall; simpl.
    apply String.eqb_neq in Hne. rewrite String.eqb_sym in Hne. by rewrite Hne.
Qed.

Lemma interleaved_tool_calls_witness :
  processChunks Sample.env 0 [Sample.userTurn "two files"]
    [ToolInputStart "A" "write"; ToolInputStart "B" "read";
     ToolCall "B" "read" (VObject [("path", VString "b.txt")]);
     ToolCall "A" "write" (VObject [("path", VString "a.html")])]
  = [Sample.userTurn "two files";
     toolCallTurn "A" "write" (VObject [("path", VString "a.html")]);
     toolCallTurn "B" "read" (VObject [("path", VString "b.txt")])].
Proof.
  refine (proj1 (interleaved_tool_calls Sample.env 0 [Sample.userTurn "two files"]
                   "A" "B" "write" "read" "write" "read"
                   (VObject [("path", VString "a.html")])
                   (VObject [("path", VString "b.txt")]) _)).
  discriminate.
Defined.

(** ** Runs of text fragments *)

Lemma sliceInit_snoc front (l : ChatMessage) : sliceInit (front ++ [l]) = front.
Proof.
  unfold sliceInit. rewrite length_app; simpl.
  rewrite take_app_length'; [done | lia].
Qed.

Lemma text_delta_starts env k ms text :
  endsMergeable ms = false ->
  applyChunk env k ms (TextDelta text) = ms ++ [textTurn text].
Proof.
  unfold endsMergeable, canMerge, applyChunk; simpl.
  destruct (last ms) as [l|]; [|done].
  destruct (role l), (content l), (flaggedError l); done.
Qed.

Lemma text_delta_merges env k front l c text :
  canMerge l = true -> content l = CText c ->
  applyChunk env k (front ++ [l]) (TextDelta text) =
    front ++ [withContent l (CText (c +:+ text))].
Proof.
  intros Hm Hc. unfold applyChunk, handleChunk.
  rewrite last_snoc, sliceInit_snoc, Hc.
  unfold canMerge in Hm. rewrite Hc in Hm.
  destruct (role l), (flaggedError l); done.
Qed.

Lemma canMerge_withContent l c :
  canMerge l = true -> canMerge (withContent l (CText c)) = true.
Proof.
  unfold canMerge, withContent, flaggedError; simpl.
  destruct (role l), (content l); try done.
Qed.

Lemma withContent_same l : withContent l (content l) = l.
Proof. by destruct l. Qed.

Lemma withContent_twice l c c' : withContent (withContent l c) c' = withContent l c'.
Proof. reflexivity. Qed.

(** A run of fragments on a transcript whose last message passes the test:
    the fragments join that message, in order. *)
Lemma text_run_merges env frags : forall k front l c,
  canMerge l = true -> content l = CText c ->
  processChunks env k (front ++ [l]) (TextDelta <$> frags) =
    front ++ [withContent l (CText (c +:+ joinText frags))].
Proof.
  induction frags as [|f frags IH]; intros k front l c Hm Hc.
  - simpl. rewrite append_empty_r, <- Hc. by rewrite withContent_same.
  - rewrite fmap_cons, processChunks_cons.
    rewrite (text_delta_merges env k front l c f) by done.
    rewrite (IH (S k) front _ (c +:+ f)).
    + rewrite withContent_twice. simpl. by rewrite append_assoc.
    + by apply canMerge_withContent.
    + done.
Qed.

(** With an assistant text turn already at the end, a fragment adds no
    turn: it lengthens that turn. *)
Lemma text_run_adds_no_turn :
  ~ (exists t,
       processChunks Sample.env 0 [textTurn "Hello"] (TextDelta <$> [" world"])
         = [textTurn "Hello"] ++ [t] /\
       role t = Assistant /\ content t = CText (joinText [" world"])).
Proof. intros (t & H & _). vm_compute in H. discriminate H. Qed.

Lemma quiet_applyChunk env k ms c : quiet c = true -> applyChunk env k ms c = ms.
Proof. by destruct c. Qed.

(** A run on a transcript whose last message passes the test: the
    fragments join that message, in order, and the chunks in between leave
    it alone. *)
Lemma run_merges env cs : forall k front l c,
  Forall (fun x => textOrQuiet x = true) cs ->
  canMerge l = true -> content l = CText c ->
  processChunks env k (front ++ [l]) cs =
    front ++ [withContent l (CText (c +:+ joinText (fragments cs)))].
Proof.
  induction cs as [|x cs IH]; intros k front l c Hcs Hm Hc.
  - change (front ++ [l] = front ++ [withContent l (CText (c +:+ EmptyString))]).
    rewrite append_empty_r, <- Hc. by rewrite withContent_same.
  - inversion Hcs as [|? ? Hx Hrest]; subst.
    rewrite processChunks_cons.
    destruct (quiet x) eqn:Hq.
    + rewrite quiet_applyChunk by done.
      replace (fragments (x :: cs)) with (fragments cs) by (by destruct x).
      by apply IH.
    + destruct x; try discriminate.
      rewrite (text_delta_merges env k front l c text) by done.
      rewrite (IH (S k) front _ (c +:+ text)); [| done | by apply canMerge_withContent | done].
      rewrite withContent_twice.
      change (fragments (TextDelta text :: cs)) with (text :: fragments cs).
      change (joinText (text :: fragments cs)) with (text +:+ joinText (fragments cs)).
      by rewrite append_assoc.
Qed.

(** A run on a transcript whose last message does not pass the test: the
    first fragment starts a turn, the others join it. *)
Lemma run_starts env cs : forall k ms,
  Forall (fun x => textOrQuiet x = true) cs ->
  fragments cs <> [] ->
  endsMergeable ms = false ->
  processChunks env k ms cs = ms ++ [textTurn (joinText (fragments cs))].
Proof.
  induction cs as [|x cs IH]; intros k ms Hcs Hne Hend; [done|].
  inversion Hcs as [|? ? Hx Hrest]; subst.
  rewrite processChunks_cons.
  destruct (quiet x) eqn:Hq.
  - rewrite quiet_applyChunk by done.
    replace (fragments (x :: cs)) with (fragments cs) in * by (by destruct x).
    by apply IH.
  - destruct x; try discriminate.
    rewrite text_delta_starts by done.
    by rewrite (run_merges env cs (S k) ms (textTurn text) text).
Qed.

(** C1, amended.  A run of text fragments with no tool or error event in
    between - chunks whose case assigns nothing may come before, between
    and after the fragments - and at least one fragment: when the
    transcript does not end with an assistant turn of plain text not
    flagged as an error, the run adds exactly one assistant turn whose
    content is the concatenation of the fragments in order; when it does,
    the run adds no turn and that last turn's content is followed by the
    concatenation. *)
Theorem text_run (env : Env) (k : nat) (ms : list ChatMessage) (cs : list Chunk) :
  Forall (fun x => textOrQuiet x = true) cs ->
  fragments cs <> [] ->
  (endsMergeable ms = false ->
     processChunks env k ms cs = ms ++ [textTurn (joinText (fragments cs))]) /\
  (forall front l c,
     ms = front ++ [l] -> canMerge l = true -> content l = CText c ->
     processChunks env k ms cs =
       front ++ [withContent l (CText (c +:+ joinText (fragments cs)))]).
Proof.
  intros Hcs Hne. split.
  - intros Hend. by apply run_starts.
  - intros front l c -> Hm Hc. by apply run_merges.
Qed.

Lemma text_run_witness :
  processChunks Sample.env 0 [Sample.userTurn "design a login screen"]
    [Start; TextStart; TextDelta "Here is "; ReasoningDelta "hm"; TextDelta "the design.";
     TextEnd; Finish "stop"]
  = [Sample.userTurn "design a login screen"; textTurn "Here is the design."].
Proof.
  refine (proj1 (text_run Sample.env 0 [Sample.userTurn "design a login screen"]
                   [Start; TextStart; TextDelta "Here is "; ReasoningDelta "hm";
                    TextDelta "the design."; TextEnd; Finish "stop"] _ _) _).
  - by repeat constructor.
  - discriminate.
  - reflexivity.
Defined.

(** ** A tool call that fails *)

(** The [tool-error] case classifies its payload by the call the
    [tool-result] case makes, so both build the same part. *)
Lemma tool_error_classified_as_result env k k' ms id name payload :
  content <$> last (applyChunk env k ms (ToolError id name payload)) =
  content <$> last (applyChunk env k' ms (ToolResult id name payload)).
Proof. unfold applyChunk, handleChunk, applyAssignment. by rewrite !last_snoc. Qed.


(** ** Stream errors *)

(** C7.  A stream-error chunk appends exactly one assistant turn whose
    content is the normalized error message and whose metadata is
    [{is_error: true, timestamp, session_id}], with the session id computed
    when the turn started; the observer receives that transcript, and the
    loop goes on with the chunks that follow. *)
Theorem stream_error_appends_and_continues (env : Env) (k : nat) (m : Machine)
    (error : JsValue) (rest : list Chunk) :
  aborted env k = false ->
  let turn := {| role := Assistant;
                 content := CText (extractErrorMessage (runtime env) error);
                 metadata := Some {| is_error := Some true;
                                     timestamp := Some (Date_now env k);
                                     session_id := Some ("session_" +:+ pretty (startTime env));
                                     extra := [] |} |} in
  let m' := step env k m (ErrorChunk error) in
  loop env k m (ErrorChunk error :: rest) = loop env (S k) m' rest /\
  current m' = current m ++ [turn] /\
  last (delivered m') = Some (updatedMessages m', current m ++ [turn]).
Proof.
  intros Hab turn m'. split_and!.
  - simpl. by rewrite Hab.
  - unfold m', step. rewrite current_onMessage. apply current_NewArray.
  - unfold m', step, onMessage, handleChunk. cbn [delivered].
    rewrite last_snoc. by rewrite current_NewArray.
Qed.

Lemma stream_error_witness :
  snapshots (query Sample.env [Sample.userTurn "hi"]
               {| chunks := [ErrorChunk (VError "socket hang up"); TextDelta "Sorry."];
                  failure := None |})
  = [ [Sample.userTurn "hi"; errorTurn Sample.env 0 "socket hang up"];
      [Sample.userTurn "hi"; errorTurn Sample.env 0 "socket hang up"; textTurn "Sorry."] ].
Proof.
  destruct (stream_error_appends_and_continues Sample.env 0
              (start [Sample.userTurn "hi"]) (VError "socket hang up")
              [TextDelta "Sorry."] eq_refl) as (Hloop & _).
  unfold query, chunks. rewrite Hloop. reflexivity.
Defined.

(** ** Cancellation *)

(** With no chunk in the stream the signal is never tested: [query] returns
    the history, adds no error turn and never calls the observer. *)
Lemma cancelled_with_no_chunk :
  let r := query Sample.envAborted [Sample.userTurn "hi"]
             {| chunks := []; failure := None |} in
  fst r <> Raised cancelled /\
  finalTranscript r = [Sample.userTurn "hi"] /\
  snapshots r = [].
Proof. split_and!; [discriminate | reflexivity | reflexivity]. Qed.

(** C5, amended.  If the stream yields at least one chunk and the signal is
    set when the first one is received, the transcript ends as the history
    followed by a single error turn that carries the session id computed
    when the turn started, that transcript is what the observer receives,
    and [query] throws the cancellation error; no chunk is processed. *)
Theorem cancelled_before_first_chunk (env : Env) (history : list ChatMessage)
    (c : Chunk) (rest : list Chunk) (fail : option JsValue) :
  aborted env 0 = true ->
  let r := query env history {| chunks := c :: rest; failure := fail |} in
  let turn := {| role := Assistant;
                 content := CText "Operation cancelled";
                 metadata := Some {| is_error := Some true;
                                     timestamp := Some (Date_now env 0);
                                     session_id := Some ("session_" +:+ pretty (startTime env));
                                     extra := [] |} |} in
  fst r = Raised (VError "Operation cancelled") /\
  finalTranscript r = history ++ [turn] /\
  snapshots r = [history ++ [turn]].
Proof.
  intros Hab. unfold query, finalTranscript, snapshots. simpl. rewrite Hab.
  split_and!; reflexivity.
Qed.

Lemma cancelled_before_first_chunk_witness :
  fst (query Sample.envAborted [Sample.userTurn "hi"]
         {| chunks := [Start; TextDelta "Hello"]; failure := None |})
  = Raised (VError "Operation cancelled").
Proof.
  exact (proj1 (cancelled_before_first_chunk Sample.envAborted [Sample.userTurn "hi"]
                  Start [TextDelta "Hello"] None eq_refl)).
Defined.

(** ** Arrays the observer holds *)

(** Every case but [tool-call] leaves the arrays built so far as they
    are: it assigns a fresh array or nothing. *)
Lemma other_chunks_keep_arrays env k m c array held :
  (forall id name input, c <> ToolCall id name input) ->
  heap m !! array = Some held ->
  heap (step env k m c) !! array = Some held.
Proof.
  intros Hc Hheld. unfold step, onMessage; cbn [heap].
  destruct c; simpl; try done;
    try (by apply lookup_app_l_Some).
  - destruct (last (current m)) as [l|]; [|by apply lookup_app_l_Some].
    destruct (role l), (content l), (flaggedError l); by apply lookup_app_l_Some.
  - by destruct (Hc toolCallId toolName input).
Qed.

(** The [tool-call] case, when the scan finds the call, writes into the
    array the variable refers to. *)
Lemma tool_call_writes_in_place env k m id name input i msg :
  scanToolCall (current m) id name input (length (current m)) = Some (i, msg) ->
  updatedMessages (step env k m (ToolCall id name input)) = updatedMessages m /\
  heap (step env k m (ToolCall id name input)) =
    <[updatedMessages m := <[i := msg]> (current m)]> (heap m).
Proof. intros H. unfold step, onMessage; simpl. by rewrite H. Qed.

(** C3, at the failing input.  The array the observer received after the
    call was opened holds, once the call is finalized, something else than
    what it held when it was received. *)
Theorem finalized_call_rewrites_delivered_array :
  let r := query Sample.env [Sample.userTurn "make a page"] openThenFinalize in
  let seen := [Sample.userTurn "make a page"; toolCallTurn "t1" "write" (VObject [])] in
  let now := [Sample.userTurn "make a page";
              toolCallTurn "t1" "write" (VObject [("path", VString "a.html")])] in
  delivered (snd r) !! 0 = Some (1, seen) /\
  heap (snd r) !! 1 = Some now /\
  seen <> now.
Proof. split_and!; [reflexivity | reflexivity | discriminate]. Qed.

(** The same assignment reaches the caller's own array when the call was
    opened in the history: the array passed in is rewritten, and it is the
    array returned. *)
Lemma finalized_call_rewrites_history_array :
  let history := [toolCallTurn "t1" "write" (VObject [])] in
  let r := query Sample.env history
             {| chunks := [ToolCall "t1" "write" (VObject [("path", VString "a.html")])];
                failure := None |} in
  fst r = Returned 0 /\
  heap (snd r) !! 0 = Some [toolCallTurn "t1" "write" (VObject [("path", VString "a.html")])].
Proof. split; reflexivity. Qed.

(** ** What one chunk can do to the transcript *)

(** The four shapes of [applyChunk]: nothing, one turn appended, text joined
    to the last turn, one tool-call part replaced. *)
Lemma applyChunk_cases env k ms c :
  applyChunk env k ms c = ms \/
  (exists t, applyChunk env k ms c = ms ++ [t]) \/
  (exists front l c0 text,
     c = TextDelta text /\ ms = front ++ [l] /\ canMerge l = true /\
     content l = CText c0 /\
     applyChunk env k ms c = front ++ [withContent l (CText (c0 +:+ text))]) \/
  (exists id name input i msg parts j,
     c = ToolCall id name input /\ ms !! i = Some msg /\ role msg = Assistant /\
     content msg = CParts parts /\ findIndex (isToolCall id) parts = Some j /\
     applyChunk env k ms c =
       <[i := withContent msg (CParts (<[j := ToolCallPart id name input]> parts))]> ms).
Proof.
  destruct c; try (by left); try (right; left; unfold applyChunk; simpl; by eauto).
  - destruct (endsMergeable ms) eqn:He.
    + right; right; left. unfold endsMergeable in He.
      destruct (last ms) as [l|] eqn:Hl; [|done].
      apply last_Some in Hl as [front ->].
      assert (exists c0, content l = CText c0) as [c0 Hc].
      { unfold canMerge in He. destruct (role l), (content l); try done. eauto. }
      exists front, l, c0, text. split_and!; try done.
      by apply text_delta_merges.
    + right; left. exists (textTurn text). by apply text_delta_starts.
  - unfold applyChunk; simpl.
    destruct (scanToolCall ms toolCallId toolName input (length ms))
      as [[i msg']|] eqn:Hs.
    + right; right; right.
      destruct (scan_spec _ _ _ _ _ _ _ Hs) as (_ & msg & parts & j & ? & ? & ? & ? & ->).
      exists toolCallId, toolName, input, i, msg, parts, j. by split_and!.
    + right; left. by eauto.
Qed.

(** ** What the observer receives *)

Lemma consumed_le env cs : forall k, consumed env k cs <= length cs.
Proof.
  induction cs as [|c cs IH]; intros k; simpl; [lia|].
  destruct (aborted env k); [lia|]. specialize (IH (S k)). lia.
Qed.

Lemma loop_trace env cs : forall k m,
  wellFormed m ->
  exists m' thrown,
    loop env k m cs = (m', k + consumed env k cs, thrown) /\
    wellFormed m' /\
    current m' = processChunks env k (current m) (take (consumed env k cs) cs) /\
    snd <$> delivered m' =
      (snd <$> delivered m) ++ trace env k (current m) (take (consumed env k cs) cs).
Proof.
  induction cs as [|c cs IH]; intros k m Hwf; cbn [loop consumed].
  - exists m, None. cbn [take processChunks trace].
    rewrite Nat.add_0_r, app_nil_r. by split_and!.
  - destruct (aborted env k) eqn:Hab.
    + exists m, (Some cancelled). cbn [take processChunks trace].
      rewrite Nat.add_0_r, app_nil_r. by split_and!.
    + destruct (IH (S k) (step env k m c)) as (m' & thrown & Hl & Hwf' & Hc & Hd).
      { by apply wellFormed_step. }
      exists m', thrown. rewrite Hl. rewrite Hc.
      split_and!; [f_equal; f_equal; lia | done | | ].
      * by rewrite current_step.
      * rewrite Hd. rewrite current_step, delivered_step by done.
        by rewrite fmap_app, <- app_assoc.
Qed.


(** ** Growth of the snapshots *)

Lemma partGrows_refl p : partGrows p p.
Proof. by left. Qed.

Lemma contentGrows_refl c : contentGrows c c.
Proof.
  destruct c as [s|ps]; simpl.
  - exists EmptyString. by rewrite append_empty_r.
  - apply Forall_Forall2_diag, Forall_forall. intros; apply partGrows_refl.
Qed.

Lemma turnGrows_refl t : turnGrows t t.
Proof. split_and!; [done | done | apply contentGrows_refl]. Qed.

Lemma turns_grow_refl ms : Forall2 turnGrows ms ms.
Proof. apply Forall_Forall2_diag, Forall_forall. intros; apply turnGrows_refl. Qed.

Lemma extends_refl ms : extends ms ms.
Proof. exists ms, []. split; [by rewrite app_nil_r | apply turns_grow_refl]. Qed.

Lemma extends_app ms new : extends ms (ms ++ new).
Proof. exists ms, new. split; [done | apply turns_grow_refl]. Qed.

Lemma extends_length ms ms' : extends ms ms' -> length ms <= length ms'.
Proof.
  intros (kept & new & -> & H). apply Forall2_length in H.
  rewrite length_app. lia.
Qed.

Lemma extends_insert ms i t t' :
  ms !! i = Some t -> turnGrows t t' -> extends ms (<[i := t']> ms).
Proof.
  intros Hi Ht. exists (<[i := t']> ms), []. split; [by rewrite app_nil_r|].
  rewrite <- (list_insert_id ms i t) at 1 by done.
  apply Forall2_insert; [apply turns_grow_refl | done].
Qed.







(** Growth is not vacuous: a snapshot that loses a turn, or whose text is
    cut, does not extend the one before. *)
Lemma extends_excludes_retraction :
  ~ extends [textTurn "Hello"; textTurn "more"] [textTurn "Hello"] /\
  ~ extends [textTurn "Hello world"] [textTurn "Hello"].
Proof.
  split.
  - intros H%extends_length. simpl in H. lia.
  - intros (kept & new & Heq & H).
    inversion H as [|t t' l l' Ht Hl]; subst. inversion Hl; subst.
    simpl in Heq. injection Heq as <- _.
    destruct Ht as (_ & _ & [more Hmore]). simpl in Hmore.
    discriminate Hmore.
Qed.

(** ** How one snapshot differs from the next *)




(** A step of this kind never loses a turn and never cuts a text. *)
Lemma mergeStep_extends cs s s' : mergeStep cs s s' -> extends s s'.
Proof.
  intros [-> | [[t ->] | [(front & l & c & more & -> & Hc & ->)
                         | (i & msg & parts & j & id & name & name' & input & input'
                            & Hi & Hc & Hp & _ & ->)]]].
  - apply extends_refl.
  - apply extends_app.
  - exists (front ++ [withContent l (CText (c +:+ more))]), [].
    split; [by rewrite app_nil_r|].
    apply Forall2_app; [apply turns_grow_refl|].
    constructor; [|constructor].
    split_and!; [done | done |]. rewrite Hc. simpl. by exists more.
  - apply (extends_insert s i msg); [done|].
    split_and!; [done | done |]. rewrite Hc. simpl.
    rewrite <- (list_insert_id parts j (ToolCallPart id name input)) at 1 by done.
    apply Forall2_insert.
    + apply Forall_Forall2_diag, Forall_forall. intros; apply partGrows_refl.
    + right. by exists id, name, name', input, input'.
Qed.

(** Without a [tool-call] chunk no part is ever replaced. *)
Lemma mergeStep_without_finalize cs s s' :
  Forall (fun c => isFinalize c = false) cs ->
  mergeStep cs s s' ->
  s' = s \/
  (exists t, s' = s ++ [t]) \/
  (exists front l c more,
     s = front ++ [l] /\ content l = CText c /\
     s' = front ++ [withContent l (CText (c +:+ more))]).
Proof.
  intros Hcs [H | [H | [H | (i & msg & parts & j & id & name & name' & input & input'
                            & _ & _ & _ & Hin & _)]]]; auto.
  rewrite Forall_forall in Hcs. by pose proof (Hcs _ Hin).
Qed.



(** ** The caller's history *)










(** * Further properties of the loop *)

(** ** How a turn ends *)

Lemma length_trace env cs : forall k ms, length (trace env k ms cs) = length cs.
Proof. induction cs as [|c cs IH]; intros k ms; simpl; [done | by rewrite IH]. Qed.

Lemma loop_thrown env cs : forall k m,
  snd (loop env k m cs) =
    if consumed env k cs <? length cs then Some cancelled else None.
Proof.
  induction cs as [|c cs IH]; intros k m; cbn [loop consumed length]; [done|].
  destruct (aborted env k); [done|]. by rewrite IH.
Qed.

Lemma consumed_all env cs : forall k,
  consumed env k cs = length cs <->
  (forall j, k <= j < k + length cs -> aborted env j = false).
Proof.
  induction cs as [|c cs IH]; intros k; cbn [consumed length].
  - split; [intros _ j Hj; lia | done].
  - destruct (aborted env k) eqn:Hab.
    + split; [discriminate|]. intros H. rewrite H in Hab by lia. discriminate.
    + split.
      * intros [= H] j Hj. destruct (decide (j = k)) as [->|Hne]; [done|].
        apply (proj1 (IH (S k)) H). lia.
      * intros H. f_equal. apply IH. intros j Hj. apply H. lia.
Qed.

Lemma consumed_short env cs : forall k,
  consumed env k cs < length cs ->
  aborted env (k + consumed env k cs) = true.
Proof.
  induction cs as [|c cs IH]; intros k; cbn [consumed length]; [lia|].
  destruct (aborted env k) eqn:Hab.
  - intros _. by rewrite Nat.add_0_r.
  - intros H. rewrite Nat.add_succ_r. apply (IH (S k)). lia.
Qed.

(** The result of [query] in closed form: what was thrown, what the
    observer received and what the transcript holds at the end. *)
Lemma query_cases env history stream :
  let n := consumed env 0 (chunks stream) in
  let ms := processChunks env 0 history (take n (chunks stream)) in
  let tr := trace env 0 history (take n (chunks stream)) in
  let q := query env history stream in
  match thrownBy env stream with
  | None =>
      fst q = Returned (updatedMessages (snd q)) /\
      snapshots q = tr /\ finalTranscript q = ms
  | Some e =>
      let t := errorTurn env n (extractErrorMessage (runtime env) e) in
      fst q = Raised e /\
      snapshots q = tr ++ [ms ++ [t]] /\ finalTranscript q = ms ++ [t]
  end.
Proof.
  intros n ms tr q.
  destruct (loop_trace env (chunks stream) 0 (start history) (wellFormed_start history))
    as (m' & thrown & Hl & Hwf & Hc & Hd).
  pose proof (loop_thrown env (chunks stream) 0 (start history)) as Ht.
  rewrite Hl in Ht. cbn [snd] in Ht.
  rewrite current_start in Hc, Hd.
  change (snd <$> delivered m' = tr) in Hd. change (current m' = ms) in Hc.
  unfold thrownBy. subst q. unfold query, snapshots, finalTranscript.
  rewrite Hl, Ht. fold n.
  destruct (n <? length (chunks stream)).
  - cbn [fst snd]. unfold catch. rewrite current_onMessage, current_NewArray.
    unfold onMessage; cbn [delivered].
    rewrite fmap_app, delivered_assign, Hd. cbn [fmap list_fmap snd].
    rewrite current_NewArray, Hc. by split_and!.
  - destruct (failure stream) as [e|].
    + cbn [fst snd]. unfold catch. rewrite current_onMessage, current_NewArray.
      unfold onMessage; cbn [delivered].
      rewrite fmap_app, delivered_assign, Hd. cbn [fmap list_fmap snd].
      rewrite current_NewArray, Hc. by split_and!.
    + cbn [fst snd]. by rewrite Hd, Hc.
Qed.

(** X1.  The observer is called once for every chunk that is processed,
    whether or not the chunk changed the transcript, and once more when
    [query] throws. *)
Theorem observer_calls (env : Env) (history : list ChatMessage) (stream : Stream) :
  length (snapshots (query env history stream)) =
    consumed env 0 (chunks stream) +
    match fst (query env history stream) with
    | Returned _ => 0
    | Raised _ => 1
    end.
Proof.
  pose proof (query_cases env history stream) as H. cbv zeta in H.
  pose proof (consumed_le env (chunks stream) 0) as Hle.
  destruct (thrownBy env stream) as [e|].
  - destruct H as (-> & -> & _).
    rewrite length_app, length_trace, length_take. simpl. lia.
  - destruct H as (-> & -> & _).
    rewrite length_trace, length_take. lia.
Qed.

(** X2.  [query] throws the cancellation error exactly when the signal is
    set as some chunk arrives, even if the stream fails later; a stream
    that fails with the signal unseen makes it throw the stream's own
    error; otherwise it returns the array that holds the history after all
    the chunks.  A signal set only once the last chunk has been processed
    is not seen. *)
Theorem query_outcome (env : Env) (history : list ChatMessage) (stream : Stream) :
  ((exists j, j < length (chunks stream) /\ aborted env j = true) ->
     fst (query env history stream) = Raised (VError "Operation cancelled")) /\
  ((forall j, j < length (chunks stream) -> aborted env j = false) ->
     match failure stream with
     | Some e => fst (query env history stream) = Raised e
     | None =>
         exists array,
           fst (query env history stream) = Returned array /\
           heap (snd (query env history stream)) !! array =
             Some (processChunks env 0 history (chunks stream))
     end).
Proof.
  pose proof (query_cases env history stream) as H. cbv zeta in H.
  pose proof (consumed_le env (chunks stream) 0) as Hle.
  unfold thrownBy in H. split.
  - intros (j & Hj & Hab).
    destruct (consumed env 0 (chunks stream) <? length (chunks stream)) eqn:Hlt.
    + by destruct H as (-> & _).
    + apply Nat.ltb_ge in Hlt.
      assert (consumed env 0 (chunks stream) = length (chunks stream)) as Heq by lia.
      pose proof (proj1 (consumed_all env (chunks stream) 0) Heq) as Hall.
      rewrite Hall in Hab by lia. discriminate.
  - intros Hno.
    assert (consumed env 0 (chunks stream) = length (chunks stream)) as Heq.
    { apply consumed_all. intros j Hj. apply Hno. lia. }
    rewrite Heq, Nat.ltb_irrefl, firstn_all in H.
    destruct (failure stream) as [e|] eqn:Hf; [by destruct H as (-> & _)|].
    destruct H as (Hr & _ & Hfin).
    exists (updatedMessages (snd (query env history stream))). split; [done|].
    unfold finalTranscript, current in Hfin.
    destruct (heap (snd (query env history stream))
                !! updatedMessages (snd (query env history stream))) as [v|] eqn:Hv.
    + simpl in Hfin. by rewrite Hfin.
    + exfalso.
      destruct (loop_not_aborted env (chunks stream) 0 (start history)
                  (wellFormed_start history)) as (m' & Hl & Hwf & _).
      { intros j Hj. apply Hno. lia. }
      unfold query in Hv. rewrite Hl, Hf in Hv. cbn [snd] in Hv.
      apply lookup_ge_None in Hv. unfold wellFormed in Hwf. lia.
Qed.

Lemma query_outcome_witness :
  fst (query Sample.env [Sample.userTurn "hi"]
         {| chunks := [TextDelta "On it"]; failure := Some (VString "ECONNRESET") |})
  = Raised (VString "ECONNRESET").
Proof.
  refine (proj2 (query_outcome Sample.env [Sample.userTurn "hi"]
                   {| chunks := [TextDelta "On it"];
                      failure := Some (VString "ECONNRESET") |}) _).
  intros j _. reflexivity.
Defined.

(** X3.  When [query] throws, nothing of the turn is lost: the final
    transcript is the history after the chunks processed so far, followed
    by one error turn with the normalized message of what is thrown, and
    that transcript is the last one the observer receives. *)
Theorem failure_keeps_progress (env : Env) (history : list ChatMessage)
    (stream : Stream) (e : JsValue) :
  fst (query env history stream) = Raised e ->
  let n := consumed env 0 (chunks stream) in
  let turn := {| role := Assistant;
                 content := CText (extractErrorMessage (runtime env) e);
                 metadata := Some {| is_error := Some true;
                                     timestamp := Some (Date_now env n);
                                     session_id := Some ("session_" +:+ pretty (startTime env));
                                     extra := [] |} |} in
  finalTranscript (query env history stream) =
    processChunks env 0 history (take n (chunks stream)) ++ [turn] /\
  last (snapshots (query env history stream)) =
    Some (finalTranscript (query env history stream)).
Proof.
  intros Hr n turn.
  pose proof (query_cases env history stream) as H. cbv zeta in H.
  destruct (thrownBy env stream) as [e'|].
  - destruct H as (Hr' & -> & ->). rewrite Hr' in Hr. injection Hr as ->.
    split; [done|]. by rewrite last_snoc.
  - destruct H as (Hr' & _). rewrite Hr' in Hr. discriminate.
Qed.

Lemma failure_keeps_progress_witness :
  finalTranscript
    (query Sample.env [Sample.userTurn "hi"]
       {| chunks := [TextDelta "On it"]; failure := Some (VString "ECONNRESET") |})
  = [Sample.userTurn "hi"; textTurn "On it"; errorTurn Sample.env 1 "ECONNRESET"].
Proof.
  exact (proj1 (failure_keeps_progress Sample.env [Sample.userTurn "hi"]
                  {| chunks := [TextDelta "On it"];
                     failure := Some (VString "ECONNRESET") |}
                  (VString "ECONNRESET") eq_refl)).
Defined.

Lemma loop_cut env pre : forall k m c rest c',
  aborted env (k + length pre) = true ->
  loop env k m (pre ++ c :: rest) = loop env k m (pre ++ [c']).
Proof.
  induction pre as [|p pre IH]; intros k m c rest c' Hab; cbn [app loop length] in *.
  - rewrite Nat.add_0_r in Hab. by rewrite Hab.
  - destruct (aborted env k); [done|]. apply IH.
    by replace (S k + length pre) with (k + S (length pre)) by lia.
Qed.

Lemma consumed_stops env pre : forall k rest,
  aborted env (k + length pre) = true ->
  consumed env k (pre ++ rest) <= length pre.
Proof.
  induction pre as [|p pre IH]; intros k rest Hab; cbn [app consumed length] in *.
  - rewrite Nat.add_0_r in Hab. destruct rest; cbn [consumed]; [lia|].
    rewrite Hab. lia.
  - destruct (aborted env k); [lia|]. apply le_n_S, IH.
    by replace (S k + length pre) with (k + S (length pre)) by lia.
Qed.

(** X4.  Once the signal is found set, nothing that follows in the stream
    matters: the chunk at which it is found, the chunks after it and the
    way the stream would have ended have no effect on what [query] does. *)
Theorem nothing_after_cancellation (env : Env) (history : list ChatMessage)
    (pre : list Chunk) (c c' : Chunk) (rest : list Chunk) (f f' : option JsValue) :
  aborted env (length pre) = true ->
  query env history {| chunks := pre ++ c :: rest; failure := f |} =
  query env history {| chunks := pre ++ [c']; failure := f' |}.
Proof.
  intros Hab. unfold query. cbn [chunks failure].
  rewrite (loop_cut env pre 0 (start history) c rest c') by done.
  pose proof (loop_thrown env (pre ++ [c']) 0 (start history)) as Ht.
  pose proof (consumed_stops env pre 0 [c'] Hab) as Hle.
  replace (consumed env 0 (pre ++ [c']) <? length (pre ++ [c'])) with true in Ht.
  2:{ symmetry. apply Nat.ltb_lt. rewrite length_app. simpl. lia. }
  destruct (loop env 0 (start history) (pre ++ [c'])) as [[m k] thrown].
  cbn [snd] in Ht. by rewrite Ht.
Qed.

Lemma nothing_after_cancellation_witness :
  query Sample.envAborted [Sample.userTurn "hi"]
    {| chunks := [TextDelta "a"; TextDelta "b"]; failure := Some VNull |} =
  query Sample.envAborted [Sample.userTurn "hi"]
    {| chunks := [Start]; failure := None |}.
Proof.
  exact (nothing_after_cancellation Sample.envAborted [Sample.userTurn "hi"]
           [] (TextDelta "a") Start [TextDelta "b"] (Some VNull) None eq_refl).
Defined.

(** ** Lengths *)

Lemma applyChunk_length env k ms c :
  length ms <= length (applyChunk env k ms c) <= S (length ms).
Proof.
  destruct (applyChunk_cases env k ms c)
    as [-> | [[t ->] | [(front & l & c0 & text & _ & -> & _ & _ & ->)
                       | (id & name & input & i & msg & parts & j & _ & _ & _ & _ & _ & ->)]]].
  - lia.
  - rewrite length_app. simpl. lia.
  - rewrite !length_app. simpl. lia.
  - rewrite length_insert. lia.
Qed.

Lemma processChunks_length env cs : forall k ms,
  length ms <= length (processChunks env k ms cs) <= length ms + length cs.
Proof.
  induction cs as [|c cs IH]; intros k ms; cbn [processChunks length]; [lia|].
  pose proof (applyChunk_length env k ms c).
  pose proof (IH (S k) (applyChunk env k ms c)). lia.
Qed.

(** X5.  A turn never shortens the transcript, and it adds at most one
    turn per chunk of the stream, plus the error turn of a failure. *)
Theorem transcript_length_bounds (env : Env) (history : list ChatMessage)
    (stream : Stream) :
  length history <= length (finalTranscript (query env history stream))
    <= length history + length (chunks stream) + 1.
Proof.
  pose proof (query_cases env history stream) as H. cbv zeta in H.
  pose proof (consumed_le env (chunks stream) 0) as Hle.
  pose proof (processChunks_length env
                (take (consumed env 0 (chunks stream)) (chunks stream)) 0 history) as Hp.
  rewrite length_take in Hp.
  destruct (thrownBy env stream) as [e|].
  - destruct H as (_ & _ & ->). rewrite length_app. simpl. lia.
  - destruct H as (_ & _ & ->). lia.
Qed.

(** ** What the transcript says *)

Lemma joinText_app a b : joinText (a ++ b) = joinText a +:+ joinText b.
Proof.
  induction a as [|x a IH]; [done|].
  change (x +:+ joinText (a ++ b) = (x +:+ joinText a) +:+ joinText b).
  by rewrite IH, append_assoc.
Qed.

Lemma narrative_app a b : narrative (a ++ b) = narrative a +:+ narrative b.
Proof. unfold narrative. by rewrite omap_app, joinText_app. Qed.

Lemma narrative_text_turn t :
  forall c, content t = CText c -> narrative [t] = c.
Proof.
  intros c Hc. unfold narrative. cbn [omap list_omap]. rewrite Hc.
  apply append_empty_r.
Qed.

Lemma narrative_parts_turn t parts : content t = CParts parts -> narrative [t] = EmptyString.
Proof. intros Hc. unfold narrative. cbn [omap list_omap]. by rewrite Hc. Qed.

Lemma narrative_insert_parts ms : forall i msg parts parts',
  ms !! i = Some msg -> content msg = CParts parts ->
  narrative (<[i := withContent msg (CParts parts')]> ms) = narrative ms.
Proof.
  induction ms as [|m ms IH]; intros i msg parts parts' Hi Hc; [done|].
  destruct i as [|i]; cbn [insert list_insert].
  - injection Hi as ->.
    change (narrative ([withContent msg (CParts parts')] ++ ms) = narrative ([msg] ++ ms)).
    rewrite !narrative_app.
    by rewrite (narrative_parts_turn _ parts'), (narrative_parts_turn msg parts).
  - change (narrative ([m] ++ <[i := withContent msg (CParts parts')]> ms)
            = narrative ([m] ++ ms)).
    rewrite !narrative_app. by rewrite (IH i msg parts parts').
Qed.

Lemma applyChunk_narrative env k ms c :
  narrative (applyChunk env k ms c) = narrative ms +:+ chunkText (runtime env) c.
Proof.
  destruct c; try (by rewrite quiet_applyChunk, append_empty_r);
    cbn [chunkText].
  - destruct (endsMergeable ms) eqn:He.
    + unfold endsMergeable in He.
      destruct (last ms) as [l|] eqn:Hl; [|done].
      apply last_Some in Hl as [front ->].
      assert (exists c0, content l = CText c0) as [c0 Hc].
      { unfold canMerge in He. destruct (role l), (content l); try done. eauto. }
      rewrite (text_delta_merges env k front l c0 text) by done.
      rewrite !narrative_app, (narrative_text_turn l c0) by done.
      rewrite (narrative_text_turn _ (c0 +:+ text)) by done.
      by rewrite append_assoc.
    + rewrite text_delta_starts by done.
      by rewrite narrative_app, (narrative_text_turn _ text).
  - unfold applyChunk, handleChunk, applyAssignment.
    by rewrite narrative_app, (narrative_text_turn _ (extractErrorMessage (runtime env) error)).
  - rewrite applyChunk_ToolInputStart, narrative_app.
    by rewrite (narrative_parts_turn _ [ToolCallPart id toolName (VObject [])]).
  - unfold applyChunk, handleChunk.
    destruct (scanToolCall ms toolCallId toolName input (length ms))
      as [[i msg']|] eqn:Hs; cbn [applyAssignment].
    + destruct (scan_spec _ _ _ _ _ _ _ Hs) as (_ & msg & parts & j & Hi & _ & Hc & _ & ->).
      rewrite (narrative_insert_parts ms i msg parts) by done.
      by rewrite append_empty_r.
    + rewrite narrative_app.
      by rewrite (narrative_parts_turn _ [ToolCallPart toolCallId toolName input]).
  - unfold applyChunk, handleChunk, applyAssignment. rewrite narrative_app.
    by erewrite narrative_parts_turn.
  - unfold applyChunk, handleChunk, applyAssignment. rewrite narrative_app.
    by erewrite narrative_parts_turn.
Qed.

(** X6.  No text is lost, repeated or reordered, however the fragments are
    spread over turns: the plain-text contents of the transcript, read in
    order, are those it had before followed by every text fragment and
    every stream-error message, in the order of the chunks. *)
Theorem narrative_preserved (env : Env) (cs : list Chunk) :
  forall k ms,
    narrative (processChunks env k ms cs) =
      narrative ms +:+ joinText (chunkText (runtime env) <$> cs).
Proof.
  induction cs as [|c cs IH]; intros k ms; cbn [processChunks].
  - by rewrite append_empty_r.
  - rewrite IH, applyChunk_narrative, append_assoc. done.
Qed.

(** ** Who speaks *)

Lemma applyChunk_roles env k ms c :
  (isToolOutcome c = true /\
   role <$> applyChunk env k ms c = (role <$> ms) ++ [Tool]) \/
  (isToolOutcome c = false /\
   (role <$> applyChunk env k ms c = role <$> ms \/
    role <$> applyChunk env k ms c = (role <$> ms) ++ [Assistant])).
Proof.
  destruct c; try (right; split; [done|]; left; by rewrite quiet_applyChunk);
    try (left; split; [done|]; unfold applyChunk, handleChunk, applyAssignment;
         by rewrite fmap_app);
    right; (split; [done|]).
  - destruct (endsMergeable ms) eqn:He.
    + left. unfold endsMergeable in He.
      destruct (last ms) as [l|] eqn:Hl; [|done].
      apply last_Some in Hl as [front ->].
      assert (exists c0, content l = CText c0) as [c0 Hc].
      { unfold canMerge in He. destruct (role l), (content l); try done. eauto. }
      rewrite (text_delta_merges env k front l c0 text) by done.
      by rewrite !fmap_app.
    + right. rewrite text_delta_starts by done. by rewrite fmap_app.
  - right. unfold applyChunk, handleChunk, applyAssignment. by rewrite fmap_app.
  - right. rewrite applyChunk_ToolInputStart. by rewrite fmap_app.
  - unfold applyChunk, handleChunk.
    destruct (scanToolCall ms toolCallId toolName input (length ms))
      as [[i msg']|] eqn:Hs; cbn [applyAssignment].
    + left.
      destruct (scan_spec _ _ _ _ _ _ _ Hs) as (_ & msg & parts & j & Hi & _ & _ & _ & ->).
      rewrite list_fmap_insert. cbn [withContent role].
      apply list_insert_id. by rewrite list_lookup_fmap, Hi.
    + right. by rewrite fmap_app.
Qed.

Lemma processChunks_roles env cs : forall k ms,
  exists added,
    role <$> processChunks env k ms cs = (role <$> ms) ++ added /\
    Forall (fun r => r = Assistant \/ r = Tool) added /\
    length (List.filter (fun r => Role_eqb r Tool) added) = countChunks isToolOutcome cs.
Proof.
  induction cs as [|c cs IH]; intros k ms; cbn [processChunks].
  - exists []. by rewrite app_nil_r.
  - destruct (IH (S k) (applyChunk env k ms c)) as (added & Heq & Hall & Hcount).
    unfold countChunks in *. cbn [List.filter].
    destruct (applyChunk_roles env k ms c) as [[Hc Hr] | [Hc [Hr|Hr]]];
      rewrite Hr in Heq; rewrite Hc.
    + exists (Tool :: added). rewrite <- app_assoc in Heq.
      split_and!; [done | constructor; auto | simpl; by rewrite Hcount].
    + exists added. by split_and!.
    + exists (Assistant :: added). rewrite <- app_assoc in Heq.
      split_and!; [done | constructor; auto | done].
Qed.

(** X7.  The loop never changes the role of a turn and adds assistant and
    tool turns only: at the end the roles are those of the history,
    followed by roles that are each [assistant] or [tool]. *)
Theorem only_assistant_and_tool_turns_added (env : Env) (history : list ChatMessage)
    (stream : Stream) :
  exists added,
    role <$> finalTranscript (query env history stream) = (role <$> history) ++ added /\
    Forall (fun r => r = Assistant \/ r = Tool) added.
Proof.
  pose proof (query_cases env history stream) as H. cbv zeta in H.
  destruct (processChunks_roles env
              (take (consumed env 0 (chunks stream)) (chunks stream)) 0 history)
    as (added & Heq & Hall & _).
  destruct (thrownBy env stream) as [e|].
  - destruct H as (_ & _ & ->). exists (added ++ [Assistant]).
    rewrite fmap_app, Heq, <- app_assoc. split; [done|].
    apply Forall_app. split; [done|]. constructor; auto.
  - destruct H as (_ & _ & ->). by exists added.
Qed.

Lemma countRole_app r a b : countRole r (a ++ b) = countRole r a + countRole r b.
Proof. unfold countRole. by rewrite List.filter_app, length_app. Qed.

Lemma countRole_roles r ms :
  countRole r ms = length (List.filter (fun x => Role_eqb x r) (role <$> ms)).
Proof.
  unfold countRole. induction ms as [|m ms IH]; [done|].
  cbn [List.filter fmap list_fmap]. destruct (Role_eqb (role m) r); simpl; by rewrite IH.
Qed.

(** X8.  Tool turns and tool outcomes correspond one to one: after any
    chunks, the transcript has as many more turns of role [tool] as there
    were [tool-result] and [tool-error] chunks, matched or not by a tool
    call. *)
Theorem tool_turns_counted (env : Env) (k : nat) (ms : list ChatMessage)
    (cs : list Chunk) :
  countRole Tool (processChunks env k ms cs) =
    countRole Tool ms + countChunks isToolOutcome cs.
Proof.
  destruct (processChunks_roles env cs k ms) as (added & Heq & _ & Hcount).
  rewrite !countRole_roles, Heq, List.filter_app, length_app. by rewrite Hcount.
Qed.

(** X9.  Text never joins an error turn: after a stream error, the
    fragments that follow make one new assistant turn after the error
    turn, whose message stays as it is. *)
Theorem text_after_stream_error (env : Env) (k : nat) (ms : list ChatMessage)
    (error : JsValue) (frags : list string) :
  frags <> [] ->
  processChunks env k ms (ErrorChunk error :: (TextDelta <$> frags)) =
    ms ++ [errorTurn env k (extractErrorMessage (runtime env) error);
           textTurn (joinText frags)].
Proof.
  intros Hne. destruct frags as [|f frags]; [done|].
  rewrite fmap_cons, !processChunks_cons.
  change (applyChunk env k ms (ErrorChunk error))
    with (ms ++ [errorTurn env k (extractErrorMessage (runtime env) error)]).
  rewrite text_delta_starts.
  - rewrite (text_run_merges env frags _ _ (textTurn f) f) by done.
    by rewrite <- app_assoc.
  - unfold endsMergeable. by rewrite last_snoc.
Qed.

Lemma text_after_stream_error_witness :
  processChunks Sample.env 0 [Sample.userTurn "hi"]
    (ErrorChunk (VString "overloaded") :: (TextDelta <$> ["Let me "; "retry."]))
  = [Sample.userTurn "hi"; errorTurn Sample.env 0 "overloaded"; textTurn "Let me retry."].
Proof.
  apply (text_after_stream_error Sample.env 0 [Sample.userTurn "hi"]
           (VString "overloaded") ["Let me "; "retry."]).
  discriminate.
Defined.

(** ** Finalized tool calls *)

Lemma findIndex_app_miss f before p after :
  Forall (fun q => f q = false) before -> f p = true ->
  findIndex f (before ++ p :: after) = Some (length before).
Proof.
  induction before as [|b before IH]; intros Hb Hp; cbn [app findIndex length].
  - by rewrite Hp.
  - inversion Hb as [|? ? Hb1 Hb2]; subst. rewrite Hb1, IH by done. done.
Qed.

Lemma scan_all_miss ms id name input :
  Forall (fun m => hasToolCall id m = false) ms ->
  scanToolCall ms id name input (length ms) = None.
Proof.
  intros H. rewrite (scan_skip ms id name input 0); [done | lia |].
  intros i msg _ Hi. rewrite Forall_lookup in H. by apply (H i).
Qed.

(** X10.  A finalized tool call is always recorded: afterwards some
    assistant turn holds a tool-call part with its id, name and input.
    When a turn already held a call of that id the transcript keeps its
    length; when none did, one assistant turn holding just that call is
    appended, the call having been opened or not. *)
Theorem tool_call_upsert (env : Env) (k : nat) (ms : list ChatMessage)
    (id name : string) (input : JsValue) :
  recordsCall (applyChunk env k ms (ToolCall id name input)) id name input /\
  (Exists (fun m => hasToolCall id m = true) ms ->
     length (applyChunk env k ms (ToolCall id name input)) = length ms) /\
  (Forall (fun m => hasToolCall id m = false) ms ->
     applyChunk env k ms (ToolCall id name input) = ms ++ [toolCallTurn id name input]).
Proof.
  unfold applyChunk, handleChunk.
  destruct (scanToolCall ms id name input (length ms)) as [[i msg']|] eqn:Hs;
    cbn [applyAssignment].
  - destruct (scan_spec _ _ _ _ _ _ _ Hs) as (_ & msg & parts & j & Hi & Hr & Hc & Hj & ->).
    destruct (findIndex_Some _ _ _ Hj) as (p & Hp & _).
    split_and!.
    + exists i, (withContent msg (CParts (<[j := ToolCallPart id name input]> parts))),
             (<[j := ToolCallPart id name input]> parts), j.
      split_and!; [| done | done |].
      * apply list_lookup_insert_eq. by apply lookup_lt_Some in Hi.
      * apply list_lookup_insert_eq. by apply lookup_lt_Some in Hp.
    + intros _. apply length_insert.
    + intros Hall. rewrite Forall_lookup in Hall.
      pose proof (Hall i msg Hi) as Hmiss. unfold hasToolCall in Hmiss.
      by rewrite Hr, Hc, Hj in Hmiss.
  - split_and!.
    + exists (length ms), (toolCallTurn id name input), [ToolCallPart id name input], 0.
      split_and!; try done.
      rewrite lookup_app_r by lia. by rewrite Nat.sub_diag.
    + intros (m & Hin & Hm)%Exists_exists.
      apply list_elem_of_lookup in Hin as [i Hi].
      pose proof (scan_None _ _ _ _ _ Hs i m (lookup_lt_Some _ _ _ Hi) Hi) as Hmiss.
      congruence.
    + done.
Qed.

Lemma tool_call_upsert_witness :
  applyChunk Sample.env 0 [Sample.userTurn "list the files"]
    (ToolCall "t9" "ls" (VObject [("path", VString ".")]))
  = [Sample.userTurn "list the files";
     toolCallTurn "t9" "ls" (VObject [("path", VString ".")])].
Proof.
  apply (tool_call_upsert Sample.env 0 [Sample.userTurn "list the files"]
           "t9" "ls" (VObject [("path", VString ".")])).
  by repeat constructor.
Defined.

(** X11.  A finalized tool call rewrites one part only: the first part of
    that id in the most recent assistant turn that holds one.  Earlier
    turns are left alone even if they hold a call of the same id, and so
    are the parts after the first match in the turn that is rewritten. *)
Theorem finalize_rewrites_latest_first_match (env : Env) (k : nat)
    (front back : list ChatMessage) (msg : ChatMessage)
    (before after : list Part) (p : Part) (id name : string) (input : JsValue) :
  role msg = Assistant ->
  content msg = CParts (before ++ p :: after) ->
  isToolCall id p = true ->
  Forall (fun q => isToolCall id q = false) before ->
  Forall (fun m => hasToolCall id m = false) back ->
  applyChunk env k (front ++ msg :: back) (ToolCall id name input) =
    front ++ withContent msg (CParts (before ++ ToolCallPart id name input :: after)) :: back.
Proof.
  intros Hr Hc Hp Hbefore Hback.
  rewrite (tool_call_updates env k front msg back id name input
             (before ++ p :: after) (length before)); try done.
  - rewrite insert_app_r_alt by lia. by rewrite Nat.sub_diag.
  - by apply findIndex_app_miss.
Qed.

Lemma finalize_rewrites_latest_first_match_witness :
  applyChunk Sample.env 0
    [toolCallTurn "t1" "write" (VObject []);
     {| role := Assistant;
        content := CParts [TextPart "Writing."; ToolCallPart "t1" "write" (VObject []);
                           ToolCallPart "t1" "write" (VObject [])];
        metadata := None |};
     Sample.userTurn "go on"]
    (ToolCall "t1" "write" (VObject [("path", VString "a.html")]))
  = [toolCallTurn "t1" "write" (VObject []);
     {| role := Assistant;
        content := CParts [TextPart "Writing.";
                           ToolCallPart "t1" "write" (VObject [("path", VString "a.html")]);
                           ToolCallPart "t1" "write" (VObject [])];
        metadata := None |};
     Sample.userTurn "go on"].
Proof.
  apply (finalize_rewrites_latest_first_match Sample.env 0
           [toolCallTurn "t1" "write" (VObject [])]
           [Sample.userTurn "go on"]
           {| role := Assistant;
              content := CParts [TextPart "Writing."; ToolCallPart "t1" "write" (VObject []);
                                 ToolCallPart "t1" "write" (VObject [])];
              metadata := None |}
           [TextPart "Writing."] [ToolCallPart "t1" "write" (VObject [])]
           (ToolCallPart "t1" "write" (VObject [])) "t1" "write"
           (VObject [("path", VString "a.html")]));
    try reflexivity; by repeat constructor.
Defined.

(** ** Arrays that stay as they were delivered *)

Lemma current_lookup m : wellFormed m -> heap m !! updatedMessages m = Some (current m).
Proof.
  unfold wellFormed, current. intros H.
  destruct (heap m !! updatedMessages m) eqn:E; [done|].
  apply lookup_ge_None in E. lia.
Qed.

Lemma arraysKept_onMessage history m :
  arraysKept history m -> arraysKept history (onMessage m).
Proof.
  intros (Hwf & H0 & Hd). split_and!; [exact Hwf | exact H0 |].
  intros array seen Hin. unfold onMessage in Hin; cbn [delivered] in Hin.
  apply elem_of_app in Hin as [Hin|Hin]; [by apply Hd|].
  apply list_elem_of_singleton in Hin. injection Hin as -> ->.
  exact (current_lookup m Hwf).
Qed.

Lemma arraysKept_NewArray history m ms :
  arraysKept history m -> arraysKept history (assign m (NewArray ms)).
Proof.
  intros (Hwf & H0 & Hd). split_and!.
  - by apply wellFormed_assign.
  - by apply lookup_app_l_Some.
  - intros array seen Hin. apply lookup_app_l_Some. by apply Hd.
Qed.

Lemma arraysKept_step history env k m c :
  isFinalize c = false -> arraysKept history m -> arraysKept history (step env k m c).
Proof.
  intros Hc Hk. unfold step. apply arraysKept_onMessage.
  destruct (handleChunk env k (current m) c) as [ms|i msg|] eqn:Hh.
  - by apply arraysKept_NewArray.
  - destruct c; try discriminate; simpl in Hh.
    destruct (last (current m)) as [l|]; [|discriminate].
    destruct (role l), (content l), (flaggedError l); discriminate.
  - done.
Qed.

Lemma arraysKept_loop history env cs : forall k m,
  Forall (fun c => isFinalize c = false) cs ->
  arraysKept history m ->
  arraysKept history (fst (fst (loop env k m cs))).
Proof.
  induction cs as [|c cs IH]; intros k m Hcs Hk; cbn [loop]; [done|].
  inversion Hcs; subst.
  destruct (aborted env k); [done|].
  apply IH; [done|]. by apply arraysKept_step.
Qed.

(** X12.  As long as the stream finalizes no tool call, arrays are never
    written after they are handed out: at the end the caller's own array
    still holds the history, and every array the observer received holds
    exactly what it held when it was received. *)
Theorem arrays_kept_without_finalize (env : Env) (history : list ChatMessage)
    (stream : Stream) :
  Forall (fun c => isFinalize c = false) (chunks stream) ->
  heap (snd (query env history stream)) !! 0 = Some history /\
  forall array seen,
    (array, seen) ∈ delivered (snd (query env history stream)) ->
    heap (snd (query env history stream)) !! array = Some seen.
Proof.
  intros Hcs.
  assert (arraysKept history (start history)) as Hstart.
  { split_and!; [apply wellFormed_start | done |].
    intros array seen Hin. by apply elem_of_nil in Hin. }
  pose proof (arraysKept_loop history env (chunks stream) 0 (start history) Hcs Hstart) as Hk.
  unfold query.
  destruct (loop env 0 (start history) (chunks stream)) as [[m k] thrown].
  cbn [fst] in Hk.
  destruct (match thrown with Some e => Some e | None => failure stream end) as [e|];
    cbn [snd].
  - unfold catch.
    destruct (arraysKept_onMessage history _
                (arraysKept_NewArray history m
                   (current m ++ [errorTurn env k (extractErrorMessage (runtime env) e)]) Hk))
      as (_ & H0 & Hd).
    by split.
  - destruct Hk as (_ & H0 & Hd). by split.
Qed.

Lemma arrays_kept_without_finalize_witness :
  heap (snd (query Sample.env [Sample.userTurn "hi"]
               {| chunks := [ToolInputStart "t1" "ls"; TextDelta "Looking."; TextDelta " Done."];
                  failure := None |})) !! 0
  = Some [Sample.userTurn "hi"].
Proof.
  refine (proj1 (arrays_kept_without_finalize Sample.env [Sample.userTurn "hi"]
                   {| chunks := [ToolInputStart "t1" "ls"; TextDelta "Looking.";
                                 TextDelta " Done."];
                      failure := None |} _)).
  by repeat constructor.
Defined.

Lemma quiet_handleChunk env k ms c : quiet c = true -> handleChunk env k ms c = NoChange.
Proof. by destruct c. Qed.

Lemma loop_quiet env history cs : forall k d,
  Forall (fun c => quiet c = true) cs ->
  (forall j, k <= j < k + length cs -> aborted env j = false) ->
  loop env k {| heap := [history]; updatedMessages := 0; delivered := d |} cs =
    ({| heap := [history]; updatedMessages := 0;
        delivered := d ++ replicate (length cs) (0, history) |},
     k + length cs, None).
Proof.
  induction cs as [|c cs IH]; intros k d Hq Hab; cbn [loop length replicate] in *.
  - by rewrite app_nil_r, Nat.add_0_r.
  - inversion Hq; subst. rewrite Hab by lia.
    unfold step. rewrite quiet_handleChunk by done.
    cbn [assign]. unfold onMessage, current. cbn [heap updatedMessages delivered].
    cbn [lookup list_lookup default from_option].
    rewrite IH; [|done|intros j Hj; apply Hab; lia].
    rewrite <- app_assoc. cbn [app]. do 2 f_equal. lia.
Qed.

(** X13.  When the stream carries only chunks whose case assigns nothing
    (markers, input fragments, [finish], ...) and ends normally with the
    signal unset, [query] builds no array: it returns the caller's own
    array, unchanged, having called the observer with it once per chunk. *)
Theorem quiet_stream_returns_history_array (env : Env) (history : list ChatMessage)
    (stream : Stream) :
  Forall (fun c => quiet c = true) (chunks stream) ->
  (forall j, j < length (chunks stream) -> aborted env j = false) ->
  failure stream = None ->
  query env history stream =
    (Returned 0,
     {| heap := [history]; updatedMessages := 0;
        delivered := replicate (length (chunks stream)) (0, history) |}).
Proof.
  intros Hq Hab Hf. unfold query, start.
  rewrite (loop_quiet env history (chunks stream) 0 []); [|done|].
  - by rewrite Hf.
  - intros j Hj. apply Hab. lia.
Qed.

Lemma quiet_stream_returns_history_array_witness :
  fst (query Sample.env [Sample.userTurn "hi"]
         {| chunks := [Start; StartStep; ToolInputDelta "t1" "{"; FinishStep; Finish "stop"];
            failure := None |})
  = Returned 0.
Proof.
  rewrite (quiet_stream_returns_history_array Sample.env [Sample.userTurn "hi"]
             {| chunks := [Start; StartStep; ToolInputDelta "t1" "{"; FinishStep;
                           Finish "stop"];
                failure := None |}); try reflexivity.
  by repeat constructor.
Defined.

(** * Properties of the chat panel *)

(** ** The state reducer *)

Lemma css_entry_eta (patch : Css.Entry) :
  {| Css.filePath := Css.filePath patch;
     Css.content := Css.content patch;
     Css.error := Css.error patch |} = patch.
Proof. by destruct patch. Qed.

(** X14.  For the css files the last write wins, whatever else happens in
    between: after any sequence of actions, the entry stored for a path is
    the patch of the last [getCssFileContent] for that path, and the entry
    the state had before when there was none; loading or clearing the
    messages never touches it. *)
Theorem css_last_patch_wins (actions : list Chat.Action) :
  forall (state : Chat.ChatSidebarState) (p : string),
    Chat.css (foldl Chat.reduce state actions) !! p =
      match Chat.lastCssPatch p actions with
      | Some e => Some e
      | None => Chat.css state !! p
      end.
Proof.
  induction actions as [|a actions IH]; intros state p; [done|].
  cbn [foldl Chat.lastCssPatch]. rewrite IH.
  destruct (Chat.lastCssPatch p actions) as [e|]; [done|].
  destruct a as [patch| | |]; try done.
  cbn [Chat.reduce Chat.getCssFileContent Chat.css]. rewrite css_entry_eta.
  destruct (String.eqb_spec (Css.filePath patch) p) as [->|Hne].
  - apply lookup_insert_eq.
  - by apply lookup_insert_ne.
Qed.

(** X15.  The messages are those of the last [loadChats] or [clearChats];
    fetching css or sending a message leaves them alone.  So once they are
    loaded the panel never shows the loading state again. *)
Theorem messages_last_load_wins (actions : list Chat.Action) :
  forall state : Chat.ChatSidebarState,
    Chat.messages (foldl Chat.reduce state actions) =
      match Chat.lastMessages actions with
      | Some l => Some l
      | None => Chat.messages state
      end /\
    (Chat.isChatHistoryLoading state = false ->
       Chat.isChatHistoryLoading (foldl Chat.reduce state actions) = false).
Proof.
  induction actions as [|a actions IH]; intros state; [done|].
  cbn [foldl Chat.lastMessages].
  destruct (IH (Chat.reduce state a)) as (Hm & Hl).
  split.
  - rewrite Hm. destruct (Chat.lastMessages actions); [done|]. by destruct a.
  - intros Hs. apply Hl. unfold Chat.isChatHistoryLoading in *.
    destruct a; cbn; try done.
Qed.

Lemma messages_last_load_wins_witness :
  Chat.isChatHistoryLoading
    (foldl Chat.reduce (Chat.reduce Chat.initialState (Chat.LoadChats []))
       [Chat.SendChatMessage;
        Chat.GetCssFileContent
          {| Css.filePath := "theme_1.css"; Css.content := None;
             Css.error := Some "ENOENT" |}])
  = false.
Proof.
  apply (messages_last_load_wins
           [Chat.SendChatMessage;
            Chat.GetCssFileContent
              {| Css.filePath := "theme_1.css"; Css.content := None;
                 Css.error := Some "ENOENT" |}]
           (Chat.reduce Chat.initialState (Chat.LoadChats []))).
  reflexivity.
Defined.

(** ** Messages with a context *)

Lemma stripPrefix_app p : forall s, Chat.stripPrefix p (p +:+ s) = Some s.
Proof.
  induction p as [|a p IH]; intros s; [done|].
  change (Chat.stripPrefix (String a p) (String a (p +:+ s)) = Some s).
  cbn [Chat.stripPrefix]. by rewrite Ascii.eqb_refl.
Qed.

Lemma string_prefix_app p : forall s, String.prefix p (p +:+ s) = true.
Proof.
  induction p as [|a p IH]; intros s; [by destruct s|].
  change (String.prefix (String a p) (String a (p +:+ s)) = true).
  cbn [String.prefix]. destruct (Ascii.ascii_dec a a); [apply IH | done].
Qed.

Lemma includes_unfold needle s :
  Chat.includes needle s =
    match Chat.stripPrefix needle s with
    | Some _ => true
    | None => match s with
              | EmptyString => false
              | String _ s' => Chat.includes needle s'
              end
    end.
Proof. by destruct s. Qed.

Lemma includes_app needle a : forall b, Chat.includes needle (a +:+ needle +:+ b) = true.
Proof.
  induction a as [|x a IH]; intros b.
  - change (Chat.includes needle (needle +:+ b) = true).
    by rewrite includes_unfold, stripPrefix_app.
  - change (Chat.includes needle (String x (a +:+ needle +:+ b)) = true).
    rewrite includes_unfold, IH. by destruct (Chat.stripPrefix _ _).
Qed.

Lemma greedySplit_none s :
  Chat.includes Chat.messageMark s = false -> Chat.greedySplit s = None.
Proof.
  induction s as [|c s IH]; [done|].
  rewrite includes_unfold.
  destruct (Chat.stripPrefix Chat.messageMark (String c s)) eqn:Hp; [discriminate|].
  intros Hs. cbn [Chat.greedySplit]. by rewrite (IH Hs), Hp.
Qed.

Lemma greedySplit_mark d b :
  Chat.includes Chat.messageMark (String d b) = false ->
  Chat.greedySplit (Chat.messageMark +:+ String d b) = Some (EmptyString, String d b).
Proof.
  intros Hb. pose proof (greedySplit_none _ Hb) as Hn.
  remember (String d b) as t eqn:Ht.
  unfold Chat.messageMark. cbv [String.append].
  cbn [Chat.greedySplit]. rewrite Hn. subst t. reflexivity.
Qed.

Lemma greedySplit_last a : forall d b,
  Chat.includes Chat.messageMark (String d b) = false ->
  Chat.greedySplit (a +:+ Chat.messageMark +:+ String d b) = Some (a, String d b).
Proof.
  induction a as [|x a IH]; intros d b Hb.
  - by apply greedySplit_mark.
  - change (Chat.greedySplit (String x (a +:+ Chat.messageMark +:+ String d b))
            = Some (String x a, String d b)).
    cbn [Chat.greedySplit]. by rewrite IH.
Qed.

(** X16.  A message sent with a context is read back as it was written
    when the typed text holds no message mark ([

Message: ]): the
    panel shows that context and that text.  When the typed text does hold
    a mark, the panel splits at the last one: what was typed before it is
    shown as part of the context. *)
Theorem context_split_at_last_mark (fileName typed : string) :
  fileName <> EmptyString ->
  (typed <> EmptyString ->
   Chat.includes Chat.messageMark typed = false ->
   Chat.matchContext (Chat.contextMessage fileName typed) = Some (fileName, typed)) /\
  (forall before after,
     typed = before +:+ Chat.messageMark +:+ after ->
     after <> EmptyString ->
     Chat.includes Chat.messageMark after = false ->
     Chat.matchContext (Chat.contextMessage fileName typed) =
       Some (fileName +:+ Chat.messageMark +:+ before, after)).
Proof.
  intros Hf. destruct fileName as [|c fileName]; [done|].
  assert (forall rest,
            Chat.matchContext (Chat.contextMark +:+ String c rest) =
              if Chat.includes Chat.messageMark (Chat.contextMark +:+ String c rest)
              then match Chat.greedySplit rest with
                   | Some (p, q) => Some (String c p, q)
                   | None => None
                   end
              else None) as Hmatch.
  { intros rest. unfold Chat.matchContext.
    rewrite string_prefix_app, stripPrefix_app. reflexivity. }
  split.
  - intros Ht Hno. destruct typed as [|d typed]; [done|].
    unfold Chat.contextMessage.
    change (String c fileName +:+ Chat.messageMark +:+ String d typed)
      with (String c (fileName +:+ Chat.messageMark +:+ String d typed)).
    rewrite Hmatch.
    change (Chat.contextMark +:+ String c (fileName +:+ Chat.messageMark +:+ String d typed))
      with ((Chat.contextMark +:+ String c fileName) +:+ Chat.messageMark +:+ String d typed).
    rewrite includes_app. by rewrite greedySplit_last.
  - intros before after -> Ha Hno. destruct after as [|d after]; [done|].
    unfold Chat.contextMessage.
    change (String c fileName +:+ Chat.messageMark +:+ before +:+ Chat.messageMark +:+ String d after)
      with (String c (fileName +:+ Chat.messageMark +:+ before +:+ Chat.messageMark +:+ String d after)).
    rewrite Hmatch.
    replace (fileName +:+ Chat.messageMark +:+ before +:+ Chat.messageMark +:+ String d after)
      with ((fileName +:+ Chat.messageMark +:+ before) +:+ Chat.messageMark +:+ String d after)
      by (by rewrite !append_assoc).
    rewrite greedySplit_last by done.
    replace (Chat.contextMark +:+
             String c ((fileName +:+ Chat.messageMark +:+ before) +:+
                       Chat.messageMark +:+ String d after))
      with ((Chat.contextMark +:+ String c (fileName +:+ Chat.messageMark +:+ before))
            +:+ Chat.messageMark +:+ String d after).
    + by rewrite includes_app.
    + change (String c ((fileName +:+ Chat.messageMark +:+ before) +:+
                        Chat.messageMark +:+ String d after))
        with (String c (fileName +:+ Chat.messageMark +:+ before) +:+
              Chat.messageMark +:+ String d after).
      by rewrite append_assoc.
Qed.

Lemma context_split_at_last_mark_witness :
  Chat.matchContext (Chat.contextMessage "design_iterations/login_1.html" "make it blue")
  = Some ("design_iterations/login_1.html", "make it blue").
Proof.
  apply (context_split_at_last_mark "design_iterations/login_1.html" "make it blue");
    [discriminate | discriminate | reflexivity].
Defined.
